(** * MeetingRec: local recording index, capture finalisation, playback and
    actionable points

    A shallow embedding of the TypeScript sources of the application
    (utils/storage.ts, the record screen, the history screen, the review
    screen and the waveform component) together
    with the properties of the recording index, of the capture session, of
    the playback controller and of the actionable-point list that the design
    document states about them, and with further properties of the same code:
    its edge cases and the way its operations compose.

    Conventions of the embedding.
    - Asynchronous functions run to completion one after the other (the
      JavaScript event loop is single-threaded); an [await] is sequencing in
      the monad [M].  A rejected promise is a thrown error.
    - The device is a record [World]: the item stored under the key
      ['saved_recordings'], the file system, the audio objects, the clock and
      the scripts of what the platform answers (failures, HTTP responses).
    - A time stamp is the JavaScript time value (milliseconds since the epoch)
      that [toISOString] prints and [new Date(s).getTime()] reads back.
    - The text kept in the key-value store is represented by what
      [JSON.parse] makes of it.
    - A JavaScript string is held as the bytes of its UTF-8 encoding.
    - Durations and positions in milliseconds are integers.  The waveform
      computes on fractions of a second: there a number is a binary64 double
      ([float]), with the arithmetic that [SpecFloat] specifies. *)

From Stdlib Require Import ZArith Lia Floats.
From stdpp Require Import base option strings list gmap sorting pretty.

Local Open Scope Z_scope.

(* ===================================================================== *)
(** ** Data model *)
(* ===================================================================== *)

(** An actionable point, with the fields of the navigation type
    [RootStackParamList.Review.savedActionablePoints]. *)
Module Point.
Record t := mk {
  id : string;
  title : string;
  description : string;
  priority : string;
  category : string;
  dueDate : string;
  assignee : string;
  status : string
}.

#[global] Instance eq_dec : EqDecision t.
Proof. solve_decision. Defined.
End Point.

(** [SavedRecording.transcription]; the elements of [words] and [topics] are
    opaque payloads of the transcription service. *)
Record Transcription := mkTranscription {
  fullText : string;
  words : list string;
  bullets : list string;
  summary_bullets : list string;
  topics : list string
}.

#[global] Instance Transcription_eq_dec : EqDecision Transcription.
Proof. solve_decision. Defined.

(** The argument of [saveRecording]: a [SavedRecording] without [id] and
    [createdAt] (the review screen also passes [actionablePoints]). *)
Record RecordingFields := mkFields {
  f_title : string;
  f_audioUri : string;
  f_audioDuration : Z;
  f_transcription : option Transcription;
  f_actionablePoints : option (list Point.t)
}.

(** [interface SavedRecording].  An optional field that is [undefined] is
    [None]; [JSON.stringify] leaves such a key out and [JSON.parse] gives it
    back as [undefined]. *)
Record SavedRecording := mkSaved {
  id : string;
  createdAt : Z;
  title : string;
  audioUri : string;
  audioDuration : Z;
  transcription : option Transcription;
  actionablePoints : option (list Point.t)
}.

#[global] Instance SavedRecording_eq_dec : EqDecision SavedRecording.
Proof. solve_decision. Defined.

(** The transcription service's answer as the screens keep it
    ([serverResult], [currentServerResult]); every field may be missing. *)
Record ServerResult := mkServerResult {
  sr_ok : bool;
  full_text : option string;
  sr_words : option (list string);
  sr_bullets : option (list string);
  sr_summary : option (list string);
  sr_topics : option (list string)
}.

(** The parameters of the ['Review'] route. *)
Record ReviewParams := mkParams {
  p_audioUri : string;
  p_audioDuration : Z;
  p_serverResult : option ServerResult;
  p_savedActionablePoints : option (list Point.t)
}.

(* ===================================================================== *)
(** ** The device *)
(* ===================================================================== *)

Inductive Error :=
  | StorageError      (* AsyncStorage rejected *)
  | FileSystemError   (* expo-file-system rejected *)
  | AudioError        (* expo-av rejected *)
  | SyntaxError       (* JSON.parse *)
  | TypeError         (* a value of the wrong shape was used *)
  | NetworkError      (* fetch rejected *)
  | HttpError (status : Z) (text : string)
  | AppError (message : string).

Inductive Outcome (A : Type) :=
  | Returned (a : A)
  | Thrown (e : Error).
Arguments Returned {A} a.
Arguments Thrown {A} e.

(** What [JSON.parse] makes of a stored text. *)
Inductive StoredText :=
  | EmptyText                               (* the empty string *)
  | Malformed                               (* JSON.parse throws *)
  | JsonOther                               (* valid JSON, not iterable: an
                                               object, a number, true, null *)
  | JsonArray (l : list SavedRecording).    (* an array of recordings *)

(** The native state of an [Audio.Sound]. *)
Record Sound := mkSound {
  loaded : option string;          (* the uri it was loaded from *)
  isPlaying : bool;
  positionMillis : Z;
  durationMillis : option Z;
  didJustFinish : bool;
  volume : Z;                      (* in hundredths: 1.0 is 100 *)
  isMuted : bool
}.

Inductive SoundCall :=
  | CallLoad (h : nat) (uri : string)
  | CallGetStatus (h : nat)
  | CallSetPosition (h : nat) (p : Z)
  | CallSetVolume (h : nat) (v : Z)
  | CallSetIsMuted (h : nat) (m : bool)
  | CallPlay (h : nat)
  | CallPause (h : nat)
  | CallUnload (h : nat).

(** What the user is shown. *)
Inductive UiEvent :=
  | Alert (title message : string)
  | Navigate (route : string) (params : ReviewParams)
  | GoBack.

(** The body of an answer of the actionable-points service. *)
Record ActionableBody := mkBody {
  b_ok : bool;
  b_actionablePoints : option (list Point.t);
  b_error : option string
}.

Inductive FetchResult :=
  | FetchRejected                                         (* no connection *)
  | FetchResponse (ok : bool) (status : Z) (text : string)
                  (json : option ActionableBody).         (* None: not JSON *)

Record World := mkWorld {
  item : option StoredText;            (* AsyncStorage['saved_recordings'] *)
  files : gmap string (option Z);      (* uri -> duration of the audio in it *)
  sounds : gmap nat Sound;             (* the Audio.Sound objects *)
  clock : list Z;                      (* the next readings of Date.now() *)
  storage_faults : list bool;          (* next AsyncStorage calls: true = rejects *)
  file_faults : list bool;             (* next file-system calls *)
  audio_faults : list bool;            (* next expo-av calls *)
  network : list FetchResult;          (* next answers to fetch *)
  audio_calls : list SoundCall;        (* calls made on sounds, oldest first *)
  ui : list UiEvent;                   (* alerts and navigation, oldest first *)
  locale : Z → string                  (* Date.prototype.toLocaleDateString *)
}.

Definition with_item (v : option StoredText) (w : World) : World :=
  mkWorld v (files w) (sounds w) (clock w) (storage_faults w) (file_faults w)
          (audio_faults w) (network w) (audio_calls w) (ui w) (locale w).
Definition with_files (v : gmap string (option Z)) (w : World) : World :=
  mkWorld (item w) v (sounds w) (clock w) (storage_faults w) (file_faults w)
          (audio_faults w) (network w) (audio_calls w) (ui w) (locale w).
Definition with_sounds (v : gmap nat Sound) (w : World) : World :=
  mkWorld (item w) (files w) v (clock w) (storage_faults w) (file_faults w)
          (audio_faults w) (network w) (audio_calls w) (ui w) (locale w).
Definition with_clock (v : list Z) (w : World) : World :=
  mkWorld (item w) (files w) (sounds w) v (storage_faults w) (file_faults w)
          (audio_faults w) (network w) (audio_calls w) (ui w) (locale w).
Definition with_storage_faults (v : list bool) (w : World) : World :=
  mkWorld (item w) (files w) (sounds w) (clock w) v (file_faults w)
          (audio_faults w) (network w) (audio_calls w) (ui w) (locale w).
Definition with_file_faults (v : list bool) (w : World) : World :=
  mkWorld (item w) (files w) (sounds w) (clock w) (storage_faults w) v
          (audio_faults w) (network w) (audio_calls w) (ui w) (locale w).
Definition with_audio_faults (v : list bool) (w : World) : World :=
  mkWorld (item w) (files w) (sounds w) (clock w) (storage_faults w)
          (file_faults w) v (network w) (audio_calls w) (ui w) (locale w).
Definition with_network (v : list FetchResult) (w : World) : World :=
  mkWorld (item w) (files w) (sounds w) (clock w) (storage_faults w)
          (file_faults w) (audio_faults w) v (audio_calls w) (ui w) (locale w).
Definition with_audio_calls (v : list SoundCall) (w : World) : World :=
  mkWorld (item w) (files w) (sounds w) (clock w) (storage_faults w)
          (file_faults w) (audio_faults w) (network w) v (ui w) (locale w).
Definition with_ui (v : list UiEvent) (w : World) : World :=
  mkWorld (item w) (files w) (sounds w) (clock w) (storage_faults w)
          (file_faults w) (audio_faults w) (network w) (audio_calls w) v (locale w).

(** The next entry of a fault script; an exhausted script means success. *)
Definition next_fault (l : list bool) : bool :=
  match l with b :: _ => b | [] => false end.

(* ===================================================================== *)
(** ** The monad of asynchronous code: state and exceptions *)
(* ===================================================================== *)

Definition M (S A : Type) : Type := S → Outcome A * S.

Definition ret {S A} (a : A) : M S A := λ s, (Returned a, s).
Definition throw {S A} (e : Error) : M S A := λ s, (Thrown e, s).
Definition bind {S A B} (m : M S A) (k : A → M S B) : M S B :=
  λ s, match m s with
       | (Returned a, s') => k a s'
       | (Thrown e, s') => (Thrown e, s')
       end.
(** [try { m } catch (e) { h e }] *)
Definition try_catch {S A} (m : M S A) (h : Error → M S A) : M S A :=
  λ s, match m s with
       | (Returned a, s') => (Returned a, s')
       | (Thrown e, s') => h e s'
       end.
(** [try { m } finally { f }] *)
Definition finally {S A} (m : M S A) (f : M S unit) : M S A :=
  λ s, match m s with
       | (r, s') => match f s' with
                    | (Returned _, s'') => (r, s'')
                    | (Thrown e, s'') => (Thrown e, s'')
                    end
       end.
Definition get {S} : M S S := λ s, (Returned s, s).
Definition modify {S} (f : S → S) : M S unit := λ s, (Returned tt, f s).

#[global] Instance M_ret {S} : MRet (M S) := λ A, ret.
#[global] Instance M_bind {S} : MBind (M S) := λ A B k m, bind m k.

(* ===================================================================== *)
(** ** Platform primitives *)
(* ===================================================================== *)

(** [Date.now()]: the next reading of the clock. *)
Definition Date_now : M World Z :=
  λ w, match clock w with
       | t :: rest => (Returned t, with_clock rest w)
       | [] => (Returned 0, w)
       end.

(** [Alert.alert], [navigation.navigate], [navigation.goBack] *)
Definition emit (e : UiEvent) : M World unit :=
  modify (λ w, with_ui (ui w ++ [e]) w).

Module AsyncStorage.
(** [AsyncStorage.getItem('saved_recordings')] *)
Definition getItem : M World (option StoredText) :=
  λ w, let w' := with_storage_faults (tail (storage_faults w)) w in
       if next_fault (storage_faults w) then (Thrown StorageError, w')
       else (Returned (item w), w').

(** [AsyncStorage.setItem('saved_recordings', text)] *)
Definition setItem (text : StoredText) : M World unit :=
  λ w, let w' := with_storage_faults (tail (storage_faults w)) w in
       if next_fault (storage_faults w) then (Thrown StorageError, w')
       else (Returned tt, with_item (Some text) w').
End AsyncStorage.

Module JSON.
Inductive value :=
  | Array (l : list SavedRecording)
  | Other.

Definition parse (text : StoredText) : Outcome value :=
  match text with
  | EmptyText => Thrown SyntaxError
  | Malformed => Thrown SyntaxError
  | JsonOther => Returned Other
  | JsonArray l => Returned (Array l)
  end.

Definition stringify (l : list SavedRecording) : StoredText := JsonArray l.
End JSON.

(** Lifting a pure outcome into the monad. *)
Definition lift_outcome {S A} (o : Outcome A) : M S A := λ s, (o, s).

Module FileSystem.
Definition documentDirectory : string := "file:///data/documents/".

(** [FileSystem.deleteAsync(uri, { idempotent })] *)
Definition deleteAsync (uri : string) (idempotent : bool) : M World unit :=
  λ w, let w' := with_file_faults (tail (file_faults w)) w in
       if next_fault (file_faults w) then (Thrown FileSystemError, w')
       else match files w !! uri with
            | Some _ => (Returned tt, with_files (delete uri (files w)) w')
            | None => if idempotent then (Returned tt, w')
                      else (Thrown FileSystemError, w')
            end.

(** [FileSystem.copyAsync({ from, to })] *)
Definition copyAsync (from to : string) : M World unit :=
  λ w, let w' := with_file_faults (tail (file_faults w)) w in
       if next_fault (file_faults w) then (Thrown FileSystemError, w')
       else match files w !! from with
            | Some content =>
                (Returned tt, with_files (<[to := content]> (files w)) w')
            | None => (Thrown FileSystemError, w')
            end.

(** [(await FileSystem.getInfoAsync(uri)).exists] *)
Definition exists_ (uri : string) (w : World) : bool :=
  bool_decide (is_Some (files w !! uri)).

(** [(await FileSystem.getInfoAsync(uri)).exists], as a call that the
    platform may reject *)
Definition getInfoAsync (uri : string) : M World bool :=
  λ w, let w' := with_file_faults (tail (file_faults w)) w in
       if next_fault (file_faults w) then (Thrown FileSystemError, w')
       else (Returned (bool_decide (is_Some (files w !! uri))), w').
End FileSystem.

(* ===================================================================== *)
(** ** utils/storage.ts *)
(* ===================================================================== *)

Module Storage.

(** [Array.prototype.sort(compare)]: a stable sort; [x] goes before [y]
    when [compare x y <= 0] and [x] came first. *)
Fixpoint sort_insert {A} (compare : A → A → Z) (x : A) (l : list A) : list A :=
  match l with
  | [] => [x]
  | y :: l' => if decide (compare x y <= 0) then x :: y :: l'
               else y :: sort_insert compare x l'
  end.
Definition Array_sort {A} (compare : A → A → Z) (l : list A) : list A :=
  foldr (sort_insert compare) [] l.

(** [(a, b) => new Date(b.createdAt).getTime() - new Date(a.createdAt).getTime()] *)
Definition byCreatedAtDesc (a b : SavedRecording) : Z :=
  createdAt b - createdAt a.

(** [saveRecording(recording)] *)
Definition saveRecording (recording : RecordingFields) : M World SavedRecording :=
  try_catch
    (now ← Date_now;
     let id := pretty now in
     createdAt ← Date_now;
     let savedRecording :=
       mkSaved id createdAt (f_title recording) (f_audioUri recording)
               (f_audioDuration recording) (f_transcription recording)
               (f_actionablePoints recording) in
     recordingsJson ← AsyncStorage.getItem;
     existingRecordings ←
       match recordingsJson with
       | None | Some EmptyText => ret []
       | Some text =>
           parsed ← lift_outcome (JSON.parse text);
           match parsed with
           | JSON.Array l => ret l
           | JSON.Other => throw TypeError     (* the spread below *)
           end
       end;
     let updatedRecordings := savedRecording :: existingRecordings in
     AsyncStorage.setItem (JSON.stringify updatedRecordings);;
     verifyJson ← AsyncStorage.getItem;
     ret savedRecording)
    (λ error, throw error).

(** [getRecordings()] *)
Definition getRecordings : M World (list SavedRecording) :=
  try_catch
    (recordingsJson ← AsyncStorage.getItem;
     match recordingsJson with
     | None | Some EmptyText => ret []
     | Some text =>
         recordings ← lift_outcome (JSON.parse text);
         match recordings with
         | JSON.Array l => ret (Array_sort byCreatedAtDesc l)
         | JSON.Other => throw TypeError       (* no method sort *)
         end
     end)
    (λ error, ret []).

(** [recordings.find(r => r.id === id)] *)
Definition find_by_id (x : string) (recordings : list SavedRecording)
  : option SavedRecording :=
  snd <$> list_find (λ r, id r = x) recordings.

(** [deleteRecording(id)] *)
Definition deleteRecording (x : string) : M World unit :=
  try_catch
    (recordings ← getRecordings;
     let recordingToDelete := find_by_id x recordings in
     match recordingToDelete with
     | Some r =>
         try_catch (FileSystem.deleteAsync (audioUri r) true)
                   (λ fileError, ret tt)
     | None => ret tt
     end;;
     let updatedRecordings := filter (λ r, id r ≠ x) recordings in
     AsyncStorage.setItem (JSON.stringify updatedRecordings))
    (λ error, throw error).

(** [getRecording(id)] *)
Definition getRecording (x : string) : M World (option SavedRecording) :=
  try_catch
    (recordings ← getRecordings;
     ret (find_by_id x recordings))
    (λ error, ret None).

(** [ensureAudioFileExists(recording)] *)
Definition ensureAudioFileExists (recording : SavedRecording) : M World string :=
  try_catch
    (fileInfo_exists ← FileSystem.getInfoAsync (audioUri recording);
     match fileInfo_exists with
     | true => ret (audioUri recording)
     | false => ret (audioUri recording)     (* a migration, one day *)
     end)
    (λ error, ret (audioUri recording)).

End Storage.

(* ===================================================================== *)
(** ** expo-av: Audio.Sound and Audio.Recording *)
(* ===================================================================== *)

(** [x || 0] on an optional number *)
Definition or_zero (x : option Z) : Z :=
  match x with
  | Some z => if decide (z = 0) then 0 else z
  | None => 0
  end.

Module Audio.

(** What [getStatusAsync] resolves to. *)
Inductive AVPlaybackStatus :=
  | StatusUnloaded                 (* { isLoaded: false } *)
  | StatusLoaded (s : Sound).

Definition status_isPlaying (st : AVPlaybackStatus) : bool :=
  match st with StatusLoaded s => isPlaying s | StatusUnloaded => false end.
Definition status_positionMillis (st : AVPlaybackStatus) : option Z :=
  match st with StatusLoaded s => Some (positionMillis s) | StatusUnloaded => None end.
Definition status_durationMillis (st : AVPlaybackStatus) : option Z :=
  match st with StatusLoaded s => durationMillis s | StatusUnloaded => None end.
Definition status_didJustFinish (st : AVPlaybackStatus) : bool :=
  match st with StatusLoaded s => didJustFinish s | StatusUnloaded => false end.

Definition unloaded_sound : Sound := mkSound None false 0 None false 100 false.

(** Every call on a sound is recorded and takes the next entry of the script
    of expo-av failures. *)
Definition call (c : SoundCall) : M World unit :=
  λ w, let w' := with_audio_calls (audio_calls w ++ [c])
                   (with_audio_faults (tail (audio_faults w)) w) in
       if next_fault (audio_faults w) then (Thrown AudioError, w')
       else (Returned tt, w').

(** The native state behind a handle; an operation on a sound that is not
    loaded rejects. *)
Definition the_loaded (h : nat) : M World Sound :=
  λ w, match sounds w !! h with
       | Some s => match loaded s with
                   | Some _ => (Returned s, w)
                   | None => (Thrown AudioError, w)
                   end
       | None => (Thrown AudioError, w)
       end.

Definition store (h : nat) (s : Sound) : M World unit :=
  modify (λ w, with_sounds (<[h := s]> (sounds w)) w).

(** [new Audio.Sound()] *)
Definition Sound_new : M World nat :=
  λ w, let h := fresh (dom (sounds w)) in
       (Returned h, with_sounds (<[h := unloaded_sound]> (sounds w)) w).

(** [sound.loadAsync({ uri }, {}, true)] *)
Definition loadAsync (h : nat) (uri : string) : M World unit :=
  call (CallLoad h uri);;
  w ← get;
  match files w !! uri with
  | Some duration => store h (mkSound (Some uri) false 0 duration false 100 false)
  | None => throw AudioError
  end.

(** [sound.getStatusAsync()] *)
Definition getStatusAsync (h : nat) : M World AVPlaybackStatus :=
  call (CallGetStatus h);;
  w ← get;
  match sounds w !! h with
  | Some s => match loaded s with
              | Some _ => ret (StatusLoaded s)
              | None => ret StatusUnloaded
              end
  | None => ret StatusUnloaded
  end.

(** The position the player takes for a request: within the track. *)
Definition clamp_position (s : Sound) (p : Z) : Z :=
  match durationMillis s with
  | Some d => Z.max 0 (Z.min d p)
  | None => Z.max 0 p
  end.

(** [sound.setPositionAsync(p)] *)
Definition setPositionAsync (h : nat) (p : Z) : M World unit :=
  call (CallSetPosition h p);;
  s ← the_loaded h;
  store h (mkSound (loaded s) (isPlaying s) (clamp_position s p)
                   (durationMillis s) false (volume s) (isMuted s)).

(** [sound.setVolumeAsync(v)] *)
Definition setVolumeAsync (h : nat) (v : Z) : M World unit :=
  call (CallSetVolume h v);;
  s ← the_loaded h;
  store h (mkSound (loaded s) (isPlaying s) (positionMillis s)
                   (durationMillis s) (didJustFinish s) v (isMuted s)).

(** [sound.setIsMutedAsync(m)] *)
Definition setIsMutedAsync (h : nat) (m : bool) : M World unit :=
  call (CallSetIsMuted h m);;
  s ← the_loaded h;
  store h (mkSound (loaded s) (isPlaying s) (positionMillis s)
                   (durationMillis s) (didJustFinish s) (volume s) m).

(** [sound.playAsync()] *)
Definition playAsync (h : nat) : M World unit :=
  call (CallPlay h);;
  s ← the_loaded h;
  store h (mkSound (loaded s) true (positionMillis s)
                   (durationMillis s) false (volume s) (isMuted s)).

(** [sound.pauseAsync()] *)
Definition pauseAsync (h : nat) : M World unit :=
  call (CallPause h);;
  s ← the_loaded h;
  store h (mkSound (loaded s) false (positionMillis s)
                   (durationMillis s) (didJustFinish s) (volume s) (isMuted s)).

(** [sound.unloadAsync()] *)
Definition unloadAsync (h : nat) : M World unit :=
  call (CallUnload h);;
  store h unloaded_sound.

(** An [Audio.Recording] in progress: the file it writes to. *)
Record Recording := mkRecording { getURI : string }.

(** [recording.stopAndUnloadAsync()] *)
Definition stopAndUnloadAsync (r : Recording) : M World unit :=
  λ w, let w' := with_audio_faults (tail (audio_faults w)) w in
       if next_fault (audio_faults w) then (Thrown AudioError, w')
       else (Returned tt, w').

(** [Audio.setAudioModeAsync({ ... })]: a call that expo-av may reject *)
Definition setAudioModeAsync : M World unit :=
  λ w, let w' := with_audio_faults (tail (audio_faults w)) w in
       if next_fault (audio_faults w) then (Thrown AudioError, w')
       else (Returned tt, w').

End Audio.

(** [String(e?.message || e)] *)
Definition error_message (e : Error) : string :=
  match e with
  | StorageError => "Storage error"
  | FileSystemError => "File system error"
  | AudioError => "Audio error"
  | SyntaxError => "JSON Parse error"
  | TypeError => "Type error"
  | NetworkError => "Network request failed"
  | HttpError status text => "HTTP " +:+ pretty status +:+ ": " +:+ text
  | AppError message => message
  end.

(* ===================================================================== *)
(** ** A screen: the device and the React state of the component *)
(* ===================================================================== *)

(** An effect on the device, run from a screen. *)
Definition liftW {St A} (m : M World A) : M (World * St) A :=
  λ '(w, s), match m w with (r, w') => (r, (w', s)) end.

(** A React state setter. *)
Definition set_state {St} (f : St → St) : M (World * St) unit :=
  modify (λ '(w, s), (w, f s)).

(** The state of the component as the running function sees it. *)
Definition get_state {St} : M (World * St) St :=
  λ '(w, s), (Returned s, (w, s)).

(* ===================================================================== *)
(** ** app/(tabs)/index.tsx: the record screen *)
(* ===================================================================== *)

Module RecordScreen.

Record State := mkState {
  recording : option Audio.Recording;
  isLoading : bool;
  audioUri : option string;
  audioDuration : Z;
  recordingElapsedMs : Z;
  recordingStartTimeMs : option Z
}.

Definition setRecording v (s : State) :=
  mkState v (isLoading s) (audioUri s) (audioDuration s)
          (recordingElapsedMs s) (recordingStartTimeMs s).
Definition setIsLoading v (s : State) :=
  mkState (recording s) v (audioUri s) (audioDuration s)
          (recordingElapsedMs s) (recordingStartTimeMs s).
Definition setAudioUri v (s : State) :=
  mkState (recording s) (isLoading s) v (audioDuration s)
          (recordingElapsedMs s) (recordingStartTimeMs s).
Definition setAudioDuration v (s : State) :=
  mkState (recording s) (isLoading s) (audioUri s) v
          (recordingElapsedMs s) (recordingStartTimeMs s).
Definition setRecordingElapsedMs v (s : State) :=
  mkState (recording s) (isLoading s) (audioUri s) (audioDuration s)
          v (recordingStartTimeMs s).
Definition setRecordingStartTimeMs v (s : State) :=
  mkState (recording s) (isLoading s) (audioUri s) (audioDuration s)
          (recordingElapsedMs s) v.

(** [`${FileSystem.documentDirectory}recording_${Date.now()}.m4a`] *)
Definition permanent_name (now : Z) : string :=
  FileSystem.documentDirectory +:+ "recording_" +:+ pretty now +:+ ".m4a".

(** The copy to permanent storage inside [stop]: the locator to go on with. *)
Definition copy_to_permanent (tempUri : string) : M World string :=
  now ← Date_now;
  let permanentUri := permanent_name now in
  try_catch
    (FileSystem.copyAsync tempUri permanentUri;;
     FileSystem.deleteAsync tempUri true;;
     ret permanentUri)
    (λ copyError, ret tempUri).

(** [stop()] *)
Definition stop : M (World * State) unit :=
  st ← get_state;
  match recording st with
  | None => ret tt
  | Some rec =>
      finally
        (try_catch
           (set_state (setIsLoading true);;
            liftW (Audio.stopAndUnloadAsync rec);;
            let tempUri := Audio.getURI rec in
            set_state (setRecording None);;
            set_state (setRecordingStartTimeMs None);;
            set_state (setRecordingElapsedMs 0);;
            permanentUri ← liftW (copy_to_permanent tempUri);
            s ← liftW Audio.Sound_new;
            liftW (Audio.loadAsync s permanentUri);;
            status ← liftW (Audio.getStatusAsync s);
            let duration := or_zero (Audio.status_durationMillis status) in
            liftW (Audio.unloadAsync s);;
            set_state (setAudioDuration duration);;
            set_state (setAudioUri (Some permanentUri));;
            liftW (emit (Navigate "Review"
                           (mkParams permanentUri duration None None))))
           (λ e, liftW (emit (Alert "Stop Failed" (error_message e)))))
        (set_state (setIsLoading false))
  end.

End RecordScreen.

(* ===================================================================== *)
(** ** screens/ReviewScreen.tsx: the review screen *)
(* ===================================================================== *)

(** The white space of ECMAScript ([WhiteSpace] and [LineTerminator]), a
    string being held as the bytes of its UTF-8 encoding.  In one byte:
    U+0009 to U+000D and U+0020 ([Ascii.is_space]).  In two bytes: U+00A0.
    In three bytes: U+1680, U+2000 to U+200A, U+2028, U+2029, U+202F, U+205F,
    U+3000 and U+FEFF. *)
Definition white_space_2 (c1 c2 : Ascii.ascii) : bool :=
  let b1 := Ascii.N_of_ascii c1 in
  let b2 := Ascii.N_of_ascii c2 in
  ((b1 =? 0xC2) && (b2 =? 0xA0))%N.

Definition white_space_3 (c1 c2 c3 : Ascii.ascii) : bool :=
  let b1 := Ascii.N_of_ascii c1 in
  let b2 := Ascii.N_of_ascii c2 in
  let b3 := Ascii.N_of_ascii c3 in
  ((b1 =? 0xE1) && (b2 =? 0x9A) && (b3 =? 0x80)
   || (b1 =? 0xE2) && (b2 =? 0x80)
      && ((0x80 <=? b3) && (b3 <=? 0x8A)
          || (b3 =? 0xA8) || (b3 =? 0xA9) || (b3 =? 0xAF))
   || (b1 =? 0xE2) && (b2 =? 0x81) && (b3 =? 0x9F)
   || (b1 =? 0xE3) && (b2 =? 0x80) && (b3 =? 0x80)
   || (b1 =? 0xEF) && (b2 =? 0xBB) && (b3 =? 0xBF))%N.

(** [String.prototype.trimStart] *)
Fixpoint trim_start (s : string) : string :=
  match s with
  | String c1 s1 =>
      if Ascii.is_space c1 then trim_start s1
      else
        match s1 with
        | String c2 s2 =>
            if white_space_2 c1 c2 then trim_start s2
            else
              match s2 with
              | String c3 s3 =>
                  if white_space_3 c1 c2 c3 then trim_start s3 else s
              | EmptyString => s
              end
        | EmptyString => s
        end
  | EmptyString => EmptyString
  end.

(** [String.prototype.trimEnd] on a string given last byte first: the bytes
    of a character come in the opposite order, and a lead byte of UTF-8 is
    never a continuation byte, so that a match is a whole character. *)
Fixpoint trim_end_reversed (s : string) : string :=
  match s with
  | String c1 s1 =>
      if Ascii.is_space c1 then trim_end_reversed s1
      else
        match s1 with
        | String c2 s2 =>
            if white_space_2 c2 c1 then trim_end_reversed s2
            else
              match s2 with
              | String c3 s3 =>
                  if white_space_3 c3 c2 c1 then trim_end_reversed s3 else s
              | EmptyString => s
              end
        | EmptyString => s
        end
  | EmptyString => EmptyString
  end.

(** [String.prototype.trim] *)
Definition trim (s : string) : string :=
  String.rev (trim_end_reversed (String.rev (trim_start s))).


(** [points.length > 0 ? points : undefined] *)
Definition non_empty_or_undefined (points : list Point.t) : option (list Point.t) :=
  if decide (Z.of_nat (length points) > 0) then Some points else None.

(** [fetch(url, { method: 'POST', ... })]: the next answer of the network *)
Definition fetch : M World FetchResult :=
  λ w, match network w with
       | FetchRejected :: rest => (Thrown NetworkError, with_network rest w)
       | r :: rest => (Returned r, with_network rest w)
       | [] => (Thrown NetworkError, w)
       end.

Module ReviewScreen.

Inductive Tab := transcription_tab | topics_tab | actionable_tab.

(** The buttons of the confirmation dialog of a deletion. *)
Inductive Button := Cancel | Delete.

Record State := mkState {
  sound : option nat;
  audioProgress : Z;
  isPlaying : bool;
  recordingTitle : string;
  isLoading : bool;
  currentServerResult : option ServerResult;
  actionablePoints : list Point.t;
  isLoadingActionable : bool;
  activeTab : Tab
}.

Definition setSound v (s : State) :=
  mkState v (audioProgress s) (isPlaying s) (recordingTitle s) (isLoading s)
          (currentServerResult s) (actionablePoints s) (isLoadingActionable s)
          (activeTab s).
Definition setAudioProgress v (s : State) :=
  mkState (sound s) v (isPlaying s) (recordingTitle s) (isLoading s)
          (currentServerResult s) (actionablePoints s) (isLoadingActionable s)
          (activeTab s).
Definition setIsPlaying v (s : State) :=
  mkState (sound s) (audioProgress s) v (recordingTitle s) (isLoading s)
          (currentServerResult s) (actionablePoints s) (isLoadingActionable s)
          (activeTab s).
Definition setIsLoading v (s : State) :=
  mkState (sound s) (audioProgress s) (isPlaying s) (recordingTitle s) v
          (currentServerResult s) (actionablePoints s) (isLoadingActionable s)
          (activeTab s).
Definition setCurrentServerResult v (s : State) :=
  mkState (sound s) (audioProgress s) (isPlaying s) (recordingTitle s)
          (isLoading s) v (actionablePoints s) (isLoadingActionable s)
          (activeTab s).
Definition setActionablePoints v (s : State) :=
  mkState (sound s) (audioProgress s) (isPlaying s) (recordingTitle s)
          (isLoading s) (currentServerResult s) v (isLoadingActionable s)
          (activeTab s).
Definition setIsLoadingActionable v (s : State) :=
  mkState (sound s) (audioProgress s) (isPlaying s) (recordingTitle s)
          (isLoading s) (currentServerResult s) (actionablePoints s) v
          (activeTab s).
Definition setActiveTab v (s : State) :=
  mkState (sound s) (audioProgress s) (isPlaying s) (recordingTitle s)
          (isLoading s) (currentServerResult s) (actionablePoints s)
          (isLoadingActionable s) v.

(** The state of a screen that has just been opened:
    [useState(serverResult)], [useState(savedActionablePoints || [])]. *)
Definition initial (params : ReviewParams) : State :=
  mkState None 0 false "" false (p_serverResult params)
          (default [] (p_savedActionablePoints params)) false transcription_tab.


(** a string in a condition: the empty string is falsy *)
Definition truthy (s : option string) : bool :=
  match s with
  | Some s => bool_decide (s ≠ "")
  | None => false
  end.

(** [togglePlayPause()] *)
Definition togglePlayPause : M (World * State) unit :=
  st ← get_state;
  match sound st with
  | None => ret tt
  | Some sound =>
      status ← liftW (Audio.getStatusAsync sound);
      if Audio.status_isPlaying status then
        liftW (Audio.pauseAsync sound);;
        set_state (setIsPlaying false)
      else
        let position := or_zero (Audio.status_positionMillis status) in
        let duration := or_zero (Audio.status_durationMillis status) in
        (if Audio.status_didJustFinish status
            || bool_decide (position >= duration - 100)
         then liftW (Audio.setPositionAsync sound 0);;
              set_state (setAudioProgress 0)
         else ret tt);;
        liftW (Audio.setVolumeAsync sound 100);;
        liftW (Audio.setIsMutedAsync sound false);;
        liftW (Audio.playAsync sound);;
        set_state (setIsPlaying true)
  end.

(** The [transcription] that [handleSave] stores for a server result. *)
Definition transcription_of (r : ServerResult) : Transcription :=
  mkTranscription (default "" (full_text r)) (default [] (sr_words r))
                  (default [] (sr_bullets r)) (default [] (sr_summary r))
                  (default [] (sr_topics r)).

(** [title.trim() || `Recording ${new Date().toLocaleDateString()}`] *)
Definition title_or_default (title : string) : M World string :=
  if decide (trim title = "") then
    now ← Date_now;
    w ← get;
    ret ("Recording " +:+ locale w now)
  else ret (trim title).

(** [handleSave(title)] *)
Definition handleSave (params : ReviewParams) (title : string)
  : M (World * State) unit :=
  st ← get_state;
  if bool_decide (p_audioUri params = "") || bool_decide (p_audioDuration params = 0)
  then liftW (emit (Alert "Error" "No recording data to save"))
  else
    finally
      (try_catch
         (set_state (setIsLoading true);;
          title ← liftW (title_or_default title);
          let recordingData :=
            mkFields title (p_audioUri params) (p_audioDuration params)
                     (transcription_of <$> currentServerResult st)
                     (non_empty_or_undefined (actionablePoints st)) in
          savedRecording ← liftW (Storage.saveRecording recordingData);
          liftW (emit (Alert "Success" "Recording saved successfully!")))
         (λ error,
            liftW (emit (Alert "Error" "Failed to save recording. Please try again."))))
      (set_state (setIsLoading false)).

(** [extractActionablePoints()] *)
Definition extractActionablePoints : M (World * State) unit :=
  st ← get_state;
  if negb (truthy (currentServerResult st ≫= full_text)) then
    liftW (emit (Alert "No Transcription"
      "Please transcribe the audio first before extracting actionable points."))
  else
    finally
      (try_catch
         (set_state (setIsLoadingActionable true);;
          resp ← liftW fetch;
          match resp with
          | FetchRejected => throw NetworkError
          | FetchResponse ok status text json =>
              if negb ok then throw (HttpError status text)
              else
                match json with
                | None => throw SyntaxError
                | Some data =>
                    match b_ok data, b_actionablePoints data with
                    | true, Some points =>
                        set_state (setActionablePoints points);;
                        set_state (setActiveTab actionable_tab);;
                        liftW (emit (Alert "Success"
                          ("Found " +:+ pretty (length points)
                           +:+ " actionable points!")))
                    | _, _ =>
                        throw (AppError
                          (if truthy (b_error data)
                           then default "" (b_error data)
                           else "Failed to extract actionable points"))
                    end
                end
          end)
         (λ error,
            liftW (emit (Alert "Error"
              ("Failed to extract actionable points: " +:+ error_message error)))))
      (set_state (setIsLoadingActionable false)).

(** [r.audioUri === audioUri && r.audioDuration === audioDuration] *)
Definition same_audio (params : ReviewParams) (r : SavedRecording) : Prop :=
  audioUri r = p_audioUri params ∧ audioDuration r = p_audioDuration params.

#[global] Instance same_audio_dec params r : Decision (same_audio params r).
Proof. unfold same_audio. apply _. Defined.



(** [cleanupAudio()] *)
Definition cleanupAudio : M (World * State) unit :=
  st ← get_state;
  match sound st with
  | None => ret tt
  | Some sound =>
      try_catch
        (status ← liftW (Audio.getStatusAsync sound);
         (if Audio.status_isPlaying status
          then liftW (Audio.pauseAsync sound)
          else ret tt);;
         liftW (Audio.unloadAsync sound))
        (λ error,
           try_catch (liftW (Audio.unloadAsync sound))
                     (λ unloadError, ret tt))
  end.

(** [seekTo(position)], for a position in whole milliseconds *)
Definition seekTo (position : Z) : M (World * State) unit :=
  st ← get_state;
  match sound st with
  | None => ret tt
  | Some sound =>
      try_catch
        (status ← liftW (Audio.getStatusAsync sound);
         let wasPlaying := Audio.status_isPlaying status in
         liftW (Audio.setPositionAsync sound position);;
         set_state (setAudioProgress position);;
         if wasPlaying then
           liftW (Audio.playAsync sound);;
           set_state (setIsPlaying true)
         else ret tt)
        (λ error, ret tt)
  end.

(** [handleSaveRecording()] *)
Definition handleSaveRecording (params : ReviewParams) : M (World * State) unit :=
  st ← get_state;
  if bool_decide (trim (recordingTitle st) = "") then
    liftW (emit (Alert "Error" "Please enter a title for your recording"))
  else handleSave params (recordingTitle st).

End ReviewScreen.

(* ===================================================================== *)
(** ** screens/HistoryScreen.tsx: the list of saved recordings *)
(* ===================================================================== *)

Module HistoryScreen.

(** The buttons of the confirmation dialog of a deletion. *)
Inductive Button := Cancel | Delete.

Record State := mkState {
  recordings : list SavedRecording;
  isLoading : bool
}.

Definition setRecordings v (s : State) := mkState v (isLoading s).
Definition setIsLoading v (s : State) := mkState (recordings s) v.

(** [useState([])], [useState(true)] *)
Definition initial : State := mkState [] true.

(** [loadRecordings()] *)
Definition loadRecordings : M (World * State) unit :=
  finally
    (try_catch
       (set_state (setIsLoading true);;
        savedRecordings ← liftW Storage.getRecordings;
        set_state (setRecordings savedRecordings))
       (λ error, liftW (emit (Alert "Error" "Failed to load recordings"))))
    (set_state (setIsLoading false)).

(** [handleDeleteRecording(recording)], with the button pressed in the dialog *)
Definition handleDeleteRecording (recording : SavedRecording) (pressed : Button)
  : M (World * State) unit :=
  match pressed with
  | Cancel => ret tt
  | Delete =>
      try_catch
        (liftW (Storage.deleteRecording (id recording));;
         loadRecordings;;
         liftW (emit (Alert "Success" "Recording deleted successfully")))
        (λ error, liftW (emit (Alert "Error" "Failed to delete recording")))
  end.

(** The server result that [handlePlayRecording] rebuilds from a stored
    transcription. *)
Definition serverResult_of (t : Transcription) : ServerResult :=
  mkServerResult true (Some (fullText t)) (Some (words t)) (Some (bullets t))
                 (Some (summary_bullets t)) (Some (topics t)).

(** The parameters with which a recording is opened for review. *)
Definition review_params (validAudioUri : string) (recording : SavedRecording)
  : ReviewParams :=
  mkParams validAudioUri (audioDuration recording)
           (serverResult_of <$> transcription recording)
           (actionablePoints recording).

(** [handlePlayRecording(recording)] *)
Definition handlePlayRecording (recording : SavedRecording)
  : M (World * State) unit :=
  try_catch
    (validAudioUri ← liftW (Storage.ensureAudioFileExists recording);
     liftW (emit (Navigate "Review" (review_params validAudioUri recording))))
    (λ error,
       liftW (emit (Alert "Error"
         "Could not access the recording. The audio file may have been moved or deleted."))).

End HistoryScreen.

(* ===================================================================== *)
(** ** components/WaveformComponent.tsx: the mock waveform *)
(* ===================================================================== *)

(** A JavaScript number is a binary64 double: [float], with the arithmetic
    of [SpecFloat] (round to nearest, ties to even). *)

Module Waveform.

(** An integral double: what [Math.floor] returns. *)
Inductive Integral :=
  | NaN
  | Infinity (negative : bool)
  | Int (z : Z).

(** [Math.floor]: a finite double is [±m * 2^e]. *)
Definition Math_floor (x : spec_float) : Integral :=
  match x with
  | S754_nan => NaN
  | S754_infinity s => Infinity s
  | S754_zero _ => Int 0
  | S754_finite s m e =>
      let v := if s then Zneg m else Zpos m in
      Int (match e with Zneg p => v / 2 ^ Zpos p | _ => v * 2 ^ e end)
  end.

(** [Math.min(a, b)] for an integer [a]. *)
Definition Math_min (a : Z) (b : Integral) : Integral :=
  match b with
  | NaN => NaN
  | Infinity true => Infinity true
  | Infinity false => Int a
  | Int z => Int (Z.min a z)
  end.

(** The number of rounds of [for (let i = 0; i < n; i++)]: none when [n] is
    [NaN] (every comparison with it is false) or not positive. *)
Definition rounds (n : Integral) : nat :=
  match n with
  | Int z => Z.to_nat z
  | _ => 0%nat
  end.

(** The literals [0.1], [0.8] and [0.9]. *)
Definition tenth : float := 0x1.999999999999ap-4%float.
Definition eight_tenths : float := 0x1.999999999999ap-1%float.
Definition nine_tenths : float := 0x1.ccccccccccccdp-1%float.

(** [random i] is what the [i]-th call of [Math.random()] returns. *)
Definition generateWaveformData (duration : float) (random : nat → float)
    : list float :=
  let dataPoints := Math_min 100 (Math_floor (Prim2SF (duration / tenth))) in
  (λ i, random i * eight_tenths + tenth)%float <$> seq 0 (rounds dataPoints).

End Waveform.

(* ===================================================================== *)
(** ** screens/ReviewScreen.tsx: mounting the player *)
(* ===================================================================== *)

Module ReviewMount.

(** The state of the review screen together with its cell [waveformData]. *)
Record Mounted := mkMounted {
  state : ReviewScreen.State;
  waveformData : list float
}.

Definition in_state (f : ReviewScreen.State → ReviewScreen.State) (m : Mounted) :=
  mkMounted (f (state m)) (waveformData m).
Definition setWaveformData v (m : Mounted) := mkMounted (state m) v.

(** A whole number of milliseconds as a JavaScript number. *)
Definition number (z : Z) : float :=
  if z <? 0 then PrimFloat.opp (of_uint63 (Uint63.of_Z (- z)))
  else of_uint63 (Uint63.of_Z z).

(** [initializeAudio()]; [random i] is what the [i]-th call of
    [Math.random()] returns. *)
Definition initializeAudio (params : ReviewParams) (random : nat → float)
  : M (World * Mounted) unit :=
  try_catch
    (liftW Audio.setAudioModeAsync;;
     fileInfo_exists ← liftW (FileSystem.getInfoAsync (p_audioUri params));
     match fileInfo_exists with
     | false =>
         liftW (emit (Alert "Error"
           "Audio file not found. The recording may have been moved or deleted."))
     | true =>
         s ← liftW Audio.Sound_new;
         liftW (Audio.loadAsync s (p_audioUri params));;
         liftW (Audio.setIsMutedAsync s false);;
         liftW (Audio.setVolumeAsync s 100);;
         set_state (in_state (ReviewScreen.setSound (Some s)));;
         set_state (in_state (ReviewScreen.setAudioProgress 0));;
         let waveform :=
           Waveform.generateWaveformData
             (number (p_audioDuration params) / 1000)%float random in
         set_state (setWaveformData waveform)
     end)
    (λ error,
       liftW (emit (Alert "Audio Error"
         ("Failed to load audio: " +:+ error_message error)))).

End ReviewMount.

(* ===================================================================== *)
(** ** Runs of several operations, and what a world holds *)
(* ===================================================================== *)

(** The recordings in the stored collection. *)
Definition stored (w : World) : list SavedRecording :=
  match item w with
  | Some (JsonArray l) => l
  | _ => []
  end.

(** The reading that the next call of [Date.now()] gets. *)
Definition next_reading (w : World) : Z :=
  match clock w with t :: _ => t | [] => 0 end.

(** A sequence of create calls, each waiting for the one before. *)
Fixpoint create_all (fs : list RecordingFields) : M World (list SavedRecording) :=
  match fs with
  | [] => ret []
  | f :: fs' =>
      r ← Storage.saveRecording f;
      rs ← create_all fs';
      ret (r :: rs)
  end.

(** Newest first, no two at the same instant. *)
Definition strictly_descending (l : list SavedRecording) : Prop :=
  StronglySorted (λ a b, createdAt a > createdAt b) l.


(** The first [n] entries of a fault script are successes. *)
Definition no_fault (n : nat) (script : list bool) : bool :=
  forallb negb (take n script).

(** The device after a call on a sound that went through. *)
Definition after_call (c : SoundCall) (w : World) : World :=
  with_audio_calls (audio_calls w ++ [c])
    (with_audio_faults (tail (audio_faults w)) w).

(** The track is at its end (within 100 ms), or has just finished. *)
Definition finished (s : Sound) : Prop :=
  didJustFinish s = true ∨
  positionMillis s >= or_zero (durationMillis s) - 100.

#[global] Instance finished_dec s : Decision (finished s).
Proof. unfold finished. apply _. Defined.

(** What [getRecordings] returns on a device. *)
Definition listed (w : World) : list SavedRecording :=
  if next_fault (storage_faults w) then []
  else Storage.Array_sort Storage.byCreatedAtDesc (stored w).

(** The answer of the actionable-points service to a successful extraction. *)
Definition extracted (status : Z) (text : string) (points : list Point.t)
    (error : option string) : FetchResult :=
  FetchResponse true status text (Some (mkBody true (Some points) error)).

(** *** binary64 rounding: the vocabulary of the proofs about the waveform *)

(** The exponent that binary64 gives to a number of a given magnitude. *)
Abbreviation fexp64 := (SpecFloat.fexp prec emax).

(** The real [N / D] lies in [[m, m+1)], and the two flags say where. *)
Definition located (mrs : shr_record) (N D : Z) : Prop :=
  0 ≤ shr_m mrs ∧ 0 < D ∧
  0 ≤ N - shr_m mrs * D < D ∧
  (shr_r mrs = true ↔ D ≤ 2 * (N - shr_m mrs * D)) ∧
  (shr_s mrs = true ↔ N - shr_m mrs * D ≠ 0 ∧ 2 * (N - shr_m mrs * D) ≠ D).

(** What [binary_round_aux] returns for the rounded mantissa [m1] at the
    exponent [e1]. *)
Definition rounded (m1 e1 : Z) : spec_float :=
  if decide (m1 = 0) then S754_zero false
  else if decide (m1 = 2 ^ 53) then
    if e1 + 1 <=? 971 then S754_finite false (Z.to_pos (2 ^ 52)) (e1 + 1)
    else S754_infinity false
  else if e1 <=? 971 then S754_finite false (Z.to_pos m1) e1
  else S754_infinity false.

(** A non-negative float at most / at least the binary64 number [K * 2^E],
    in the order of [SFcompare] on canonical floats: the exponent first. *)
Definition below (x : spec_float) (K E : Z) : Prop :=
  match x with
  | S754_zero false => True
  | S754_finite false m e =>
      bounded prec emax m e = true ∧ (e < E ∨ (e = E ∧ Zpos m ≤ K))
  | _ => False
  end.

Definition above (x : spec_float) (K E : Z) : Prop :=
  match x with
  | S754_finite false m e =>
      bounded prec emax m e = true ∧ (E < e ∨ (e = E ∧ K ≤ Zpos m))
  | S754_infinity false => True
  | _ => False
  end.

(** The mantissa of 0.1 and of 0.8, and that of 0.9. *)
Abbreviation M1 := 7205759403792794.
Abbreviation M9 := 8106479329266893.

(** A draw of [Math.random()]: in [[0, 1)]. *)
Definition unit_interval (r : float) : Prop :=
  (0 <=? r)%float = true ∧ (r <? 1)%float = true.

(** An amplitude of the mock waveform: in [[0.1, 0.9)]. *)
Definition amplitude (a : float) : Prop :=
  (Waveform.tenth <=? a)%float = true ∧ (a <? Waveform.nine_tenths)%float = true.

(** The rejections among the first [n] entries of a fault script. *)
Definition rejections (n : nat) (script : list bool) : nat :=
  length (filter (λ b, b = true) (take n script)).

(* ===================================================================== *)
(** ** Sample data *)
(* ===================================================================== *)

(** A device just installed: nothing stored, no file, and a platform whose
    calls all succeed; [ck] are the readings of its clock. *)
Definition quiet_world (ck : list Z) : World :=
  mkWorld None ∅ ∅ ck [] [] [] [] [] [] (λ _, "2/11/2026").

Definition standup : RecordingFields :=
  mkFields "Standup" "file://a.m4a" 65000 None None.
Definition retro : RecordingFields :=
  mkFields "Retro" "file://b.m4a" 1000 None None.

(** A device that holds one recording and its audio file. *)
Definition standup_saved : SavedRecording :=
  mkSaved "1700000000000" 1700000000000 "Standup" "file://a.m4a" 65000 None None.
Definition one_recording_world : World :=
  mkWorld (Some (JsonArray [standup_saved])) {[ "file://a.m4a" := Some 65000 ]}
          ∅ [] [] [] [] [] [] [] (λ _, "2/11/2026").

(** The same device at a moment when the store rejects the next read. *)
Definition unreadable_world : World :=
  with_storage_faults [true] one_recording_world.

(** A device whose stored text is not JSON. *)
Definition malformed_world : World :=
  mkWorld (Some Malformed) ∅ ∅ [] [] [] [] [] [] [] (λ _, "2/11/2026").

(** A capture in progress whose temporary file holds three seconds of audio;
    [ff] scripts the file system. *)
Definition capture : Audio.Recording := Audio.mkRecording "file:///cache/rec.m4a".
Definition recording_state : RecordScreen.State :=
  RecordScreen.mkState (Some capture) false None 0 3000 (Some 1700000000000).
Definition capturing_world (ff : list bool) : World :=
  mkWorld None {[ "file:///cache/rec.m4a" := Some 3000 ]} ∅ [1700000003000]
          [] ff [] [] [] [] (λ _, "2/11/2026").

(** A review screen whose ten-second track has been played to its end. *)
Definition played_track : Sound :=
  mkSound (Some "file://a.m4a") false 10000 (Some 10000) true 100 false.
Definition played_world : World :=
  mkWorld None {[ "file://a.m4a" := Some 10000 ]} {[ 0%nat := played_track ]}
          [] [] [] [] [] [] [] (λ _, "2/11/2026").

Definition call_alice : Point.t :=
  Point.mk "p1" "Call Alice" "About the budget" "high" "" "" "" "pending".
Definition send_notes : Point.t :=
  Point.mk "p2" "Send notes" "To the team" "low" "" "" "" "pending".
Definition book_room : Point.t :=
  Point.mk "p3" "Book a room" "For Friday" "medium" "" "" "" "pending".

Definition standup_result : ServerResult :=
  mkServerResult true (Some "We agreed to call Alice.") None None None None.


(** A device on which the service answers two extractions. *)
Definition extracting_world : World :=
  mkWorld None ∅ ∅ [] [] [] []
          [extracted 200 "" [call_alice; send_notes] None;
           extracted 200 "" [book_room] None]
          [] [] (λ _, "2/11/2026").
Definition fresh_params : ReviewParams :=
  mkParams "file://a.m4a" 65000 None None.
Definition transcribed_state : ReviewScreen.State :=
  ReviewScreen.setCurrentServerResult (Some standup_result)
    (ReviewScreen.initial fresh_params).

(** A quarter of a second, and draws that alternate between 0.5 and 0.75. *)
Definition quarter_second : float := 0x1p-2%float.
Definition two_draws (i : nat) : float :=
  (if Nat.even i then 0x1p-1 else 0x1.8p-1)%float.

(** Two recordings saved within the same millisecond. *)
Definition retro_twin : SavedRecording :=
  mkSaved "1700000000000" 1700000000000 "Retro" "file://b.m4a" 1000 None None.
Definition twins_world : World :=
  mkWorld (Some (JsonArray [retro_twin; standup_saved]))
          {[ "file://a.m4a" := Some 65000; "file://b.m4a" := Some 1000 ]}
          ∅ [] [] [] [] [] [] [] (λ _, "2/11/2026").

(** A review screen whose ten-second track is playing, four seconds in. *)
Definition playing_track : Sound :=
  mkSound (Some "file://a.m4a") true 4000 (Some 10000) false 100 false.
Definition playing_world : World :=
  mkWorld None {[ "file://a.m4a" := Some 10000 ]} {[ 0%nat := playing_track ]}
          [] [] [] [] [] [] [] (λ _, "2/11/2026").
Definition playing_state : ReviewScreen.State :=
  ReviewScreen.setIsPlaying true
    (ReviewScreen.setAudioProgress 3900
       (ReviewScreen.setSound (Some 0%nat) (ReviewScreen.initial fresh_params))).

(** Titles as the keyboard gives them: one made of white space only (a tab,
    U+00A0, U+2003, U+FEFF, a line feed and U+3000), and one with a
    no-break space before it and an ideographic space after it. *)
Definition of_bytes (bytes : list N) : string :=
  foldr (λ b, String (Ascii.ascii_of_N b)) "" bytes.
Definition blank_title : string :=
  of_bytes [0x09; 0xC2; 0xA0; 0xE2; 0x80; 0x83; 0xEF; 0xBB; 0xBF; 0x0A;
            0xE3; 0x80; 0x80]%N.
Definition padded_title : string :=
  of_bytes [0xC2; 0xA0]%N +:+ "Caf" +:+ of_bytes [0xC3; 0xA9]%N
  +:+ of_bytes [0xE3; 0x80; 0x80]%N.

(* ===================================================================== *)
(** * Properties *)
(* ===================================================================== *)

Ltac unfold_monad :=
  unfold mbind, mret, M_bind, M_ret, liftW, set_state, get_state, lift_outcome,
    bind, ret, throw, try_catch, finally, get, modify in *.

(** ** The sort of [getRecordings] *)

Section Array_sort.
Context {A : Type} (compare : A → A → Z).

Lemma sort_insert_Permutation x l :
  Storage.sort_insert compare x l ≡ₚ x :: l.
Proof.
  induction l as [|y l IH]; simpl; [done|].
  case_decide; [done|]. rewrite IH. apply Permutation_swap.
Qed.

Lemma Array_sort_Permutation l : Storage.Array_sort compare l ≡ₚ l.
Proof.
  induction l as [|x l IH]; simpl; [done|].
  rewrite sort_insert_Permutation. by f_equiv.
Qed.

Lemma elem_of_Array_sort x l : x ∈ Storage.Array_sort compare l ↔ x ∈ l.
Proof. by rewrite Array_sort_Permutation. Qed.

(** When [compare] orders the elements by a key, newest key first. *)
Context (key : A → Z).
Hypothesis compare_key : ∀ a b, compare a b = key b - key a.

Lemma sort_insert_sorted x l :
  StronglySorted (λ a b, key a >= key b) l →
  StronglySorted (λ a b, key a >= key b) (Storage.sort_insert compare x l).
Proof.
  induction 1 as [|y l Hl IH Hy]; simpl.
  - repeat constructor.
  - case_decide as Hc; rewrite compare_key in Hc.
    + constructor; [by constructor|].
      constructor; [lia|].
      eapply Forall_impl; [exact Hy|]. simpl. intros; lia.
    + constructor; [done|].
      rewrite sort_insert_Permutation. constructor; [lia|done].
Qed.

Lemma Array_sort_sorted l :
  StronglySorted (λ a b, key a >= key b) (Storage.Array_sort compare l).
Proof.
  induction l as [|x l IH]; simpl; [constructor|].
  by apply sort_insert_sorted.
Qed.

Lemma sorted_NoDup_strict l :
  StronglySorted (λ a b, key a >= key b) l →
  NoDup (key <$> l) →
  StronglySorted (λ a b, key a > key b) l.
Proof.
  induction 1 as [|x l Hl IH Hx]; intros Hnd; [constructor|].
  simpl in Hnd. apply NoDup_cons in Hnd as [Hx' Hnd].
  constructor; [by apply IH|].
  apply Forall_forall. intros y Hy.
  rewrite Forall_forall in Hx. specialize (Hx y Hy).
  assert (key x ≠ key y).
  { intros Heq. apply Hx'. rewrite Heq. by apply list_elem_of_fmap_2. }
  lia.
Qed.

Lemma Array_sort_strict l :
  NoDup (key <$> l) →
  StronglySorted (λ a b, key a > key b) (Storage.Array_sort compare l).
Proof.
  intros Hnd. apply sorted_NoDup_strict; [apply Array_sort_sorted|].
  by rewrite Array_sort_Permutation.
Qed.

End Array_sort.

(** ** utils/storage.ts *)

Lemma getRecordings_eq w :
  Storage.getRecordings w =
    (Returned (if next_fault (storage_faults w) then []
               else Storage.Array_sort Storage.byCreatedAtDesc (stored w)),
     with_storage_faults (tail (storage_faults w)) w).
Proof.
  unfold Storage.getRecordings, AsyncStorage.getItem, stored. unfold_monad.
  destruct (next_fault (storage_faults w)); [done|].
  destruct (item w) as [[]|]; simpl; done.
Qed.

Lemma getRecordings_total w :
  ∃ l w', Storage.getRecordings w = (Returned l, w').
Proof. rewrite getRecordings_eq. eauto. Qed.

(** What a call of [saveRecording] that returns has done. *)
Lemma saveRecording_Returned f w r w' :
  Storage.saveRecording f w = (Returned r, w') →
  r = mkSaved (pretty (next_reading w))
              (next_reading (with_clock (tail (clock w)) w))
              (f_title f) (f_audioUri f) (f_audioDuration f)
              (f_transcription f) (f_actionablePoints f) ∧
  item w' = Some (JsonArray (r :: stored w)) ∧
  clock w' = tail (tail (clock w)) ∧
  files w' = files w ∧ ui w' = ui w.
Proof.
  unfold Storage.saveRecording, Date_now, AsyncStorage.getItem,
    AsyncStorage.setItem, stored, next_reading.
  unfold_monad.
  destruct w as [it fl sn ck sf ff af nw ac u lc]; simpl.
  destruct ck as [|t1 [|t2 ck]]; simpl;
  destruct sf as [|[] [|[] [|[] sf]]]; simpl;
  destruct it as [[]|]; simpl; intros [= <- <-]; simpl; done.
Qed.

(** C1, as the design document states it, fails: two calls of [saveRecording]
    that read the same millisecond off the clock return the same [id]. *)
Lemma saveRecording_same_millisecond_same_id :
  let w := quiet_world [1700000000000; 1700000000000;
                        1700000000000; 1700000000000] in
  let w1 := snd (Storage.saveRecording standup w) in
  ∃ r1 r2,
    fst (Storage.saveRecording standup w) = Returned r1 ∧
    fst (Storage.saveRecording retro w1) = Returned r2 ∧
    id r1 = id r2.
Proof.
  intros w w1. eexists _, _.
  split; [vm_compute; reflexivity|].
  split; [vm_compute; reflexivity|].
  reflexivity.
Qed.

(** C1, amended: the [id] of a created record is the decimal rendering of the
    clock reading taken at the call ([Date.now()], in milliseconds), so two
    calls of [saveRecording] that read different milliseconds return records
    with different [id]s. *)
Theorem saveRecording_ids_differ f1 f2 w1 w1' w2 w2' r1 r2 :
  Storage.saveRecording f1 w1 = (Returned r1, w1') →
  Storage.saveRecording f2 w2 = (Returned r2, w2') →
  next_reading w1 ≠ next_reading w2 →
  id r1 = pretty (next_reading w1) ∧
  id r2 = pretty (next_reading w2) ∧
  id r1 ≠ id r2.
Proof.
  intros (-> & _)%saveRecording_Returned (-> & _)%saveRecording_Returned Hne.
  simpl. split_and!; [done..|].
  intros Heq. by apply Hne, (inj pretty).
Qed.

Lemma saveRecording_ids_differ_witness :
  let w1 := quiet_world [5; 5; 6; 6] in
  let w2 := snd (Storage.saveRecording standup w1) in
  ∃ r1 r2,
    fst (Storage.saveRecording standup w1) = Returned r1 ∧
    fst (Storage.saveRecording retro w2) = Returned r2 ∧
    id r1 ≠ id r2.
Proof.
  intros w1 w2. eexists _, _.
  split; [vm_compute; reflexivity|].
  split; [vm_compute; reflexivity|].
  apply (saveRecording_ids_differ standup retro w1
           (snd (Storage.saveRecording standup w1)) w2
           (snd (Storage.saveRecording retro w2)));
    [vm_compute; reflexivity | vm_compute; reflexivity | vm_compute; discriminate].
Defined.

(** After a sequence of create calls the store holds the created records,
    the last one first, before what it held. *)
Lemma create_all_stored fs : ∀ w rs w',
  create_all fs w = (Returned rs, w') →
  stored w' = reverse rs ++ stored w.
Proof.
  induction fs as [|f fs IH]; intros w rs w'; simpl; unfold_monad.
  - by intros [= <- <-].
  - destruct (Storage.saveRecording f w) as [[r|e] w1] eqn:Hsave; [|done].
    destruct (create_all fs w1) as [[rs'|e] w2] eqn:Hrest; [|done].
    intros [= <- <-].
    apply saveRecording_Returned in Hsave as (_ & Hitem & _).
    rewrite (IH _ _ _ Hrest).
    assert (stored w1 = r :: stored w) as ->
      by (unfold stored at 1; by rewrite Hitem).
    rewrite reverse_cons, <-(assoc_L (++)). done.
Qed.

(** C2: after any sequence of create calls whose records (with those already
    stored) have pairwise distinct [createdAt], [getRecordings] returns a list
    in strictly descending [createdAt] order; when the read of the store
    succeeds that list holds exactly the records of the collection. *)
Theorem getRecordings_strictly_descending fs w rs w1 :
  create_all fs w = (Returned rs, w1) →
  NoDup (createdAt <$> (rs ++ stored w)) →
  ∃ l w2,
    Storage.getRecordings w1 = (Returned l, w2) ∧
    strictly_descending l ∧
    (next_fault (storage_faults w1) = false → l ≡ₚ rs ++ stored w).
Proof.
  intros Hrun Hnd. rewrite getRecordings_eq. eexists _, _. split; [done|].
  apply create_all_stored in Hrun.
  destruct (next_fault (storage_faults w1)).
  - split; [constructor|done].
  - split.
    + apply (Array_sort_strict _ createdAt); [done|].
      rewrite Hrun, fmap_app, fmap_reverse, reverse_Permutation, <-fmap_app. done.
    + intros _. rewrite Array_sort_Permutation, Hrun. by rewrite reverse_Permutation.
Qed.

Lemma getRecordings_strictly_descending_witness :
  let w := quiet_world [1; 2; 3; 4] in
  let w1 := snd (create_all [standup; retro] w) in
  ∃ l w2,
    Storage.getRecordings w1 = (Returned l, w2) ∧
    strictly_descending l ∧
    (next_fault (storage_faults w1) = false →
     l ≡ₚ default [] (match fst (create_all [standup; retro] w) with
                      | Returned rs => Some rs
                      | Thrown _ => None
                      end) ++ stored w).
Proof.
  intros w w1.
  apply (getRecordings_strictly_descending [standup; retro] w).
  - vm_compute. reflexivity.
  - apply (bool_decide_unpack _). vm_compute. exact I.
Defined.

(** C3: when the stored text is absent or is not JSON, or when the read of
    the key-value store fails, [getRecordings] returns the empty list; it
    throws nothing. *)
Theorem getRecordings_lenient w :
  item w = None ∨ item w = Some Malformed ∨
    next_fault (storage_faults w) = true →
  ∃ w', Storage.getRecordings w = (Returned [], w').
Proof.
  intros H. rewrite getRecordings_eq. eexists.
  destruct (next_fault (storage_faults w)); [done|].
  unfold stored. destruct H as [->|[->|?]]; done.
Qed.

Lemma getRecordings_lenient_witness :
  ∃ w', Storage.getRecordings malformed_world = (Returned [], w').
Proof.
  apply (getRecordings_lenient malformed_world).
  right. left. reflexivity.
Defined.

Lemma NoDup_fmap_elem_eq {A B} (f : A → B) (l : list A) x y :
  NoDup (f <$> l) → x ∈ l → y ∈ l → f x = f y → x = y.
Proof.
  induction l as [|a l IH]; simpl; [by intros _ ?%elem_of_nil|].
  intros [Ha Hnd]%NoDup_cons [->|Hx]%elem_of_cons [->|Hy]%elem_of_cons Heq; auto.
  - destruct Ha. rewrite Heq. by apply list_elem_of_fmap_2.
  - destruct Ha. rewrite <-Heq. by apply list_elem_of_fmap_2.
Qed.

Lemma find_by_id_Some x l r :
  Storage.find_by_id x l = Some r → r ∈ l ∧ id r = x.
Proof.
  unfold Storage.find_by_id. destruct (list_find _ l) as [[i r']|] eqn:H; [|done].
  intros [= <-]. apply list_find_Some in H as (H & ? & _).
  split; [by eapply list_elem_of_lookup_2|done].
Qed.

Lemma find_by_id_None x l :
  Storage.find_by_id x l = None → ∀ r, r ∈ l → id r ≠ x.
Proof.
  unfold Storage.find_by_id. destruct (list_find _ l) as [[i r']|] eqn:H; [done|].
  intros _. apply list_find_None in H. by apply Forall_forall.
Qed.

(** [deleteRecording], step by step: the list it reads, the file it deletes,
    the collection it writes. *)
Lemma deleteRecording_eq x w :
  Storage.deleteRecording x w =
    let w1 := with_storage_faults (tail (storage_faults w)) w in
    let w2 :=
      match Storage.find_by_id x (listed w) with
      | Some r => snd (FileSystem.deleteAsync (audioUri r) true w1)
      | None => w1
      end in
    AsyncStorage.setItem
      (JSON.stringify (filter (λ r, id r ≠ x) (listed w))) w2.
Proof.
  unfold Storage.deleteRecording. unfold_monad. rewrite getRecordings_eq.
  fold (listed w). simpl.
  destruct (Storage.find_by_id _ _) as [r|]; simpl.
  - destruct (FileSystem.deleteAsync _ _ _) as [[[]|e] w2]; simpl;
      by destruct (AsyncStorage.setItem _ _) as [[[]|e'] w3].
  - by destruct (AsyncStorage.setItem _ _) as [[[]|e'] w3].
Qed.

Lemma deleteAsync_frame uri b w :
  let w' := snd (FileSystem.deleteAsync uri b w) in
  item w' = item w ∧ storage_faults w' = storage_faults w ∧
  (next_fault (file_faults w) = false → b = true → files w' !! uri = None).
Proof.
  unfold FileSystem.deleteAsync.
  destruct (next_fault (file_faults w)); simpl; [done|].
  destruct (files w !! uri) eqn:Hf; simpl.
  - split_and!; [done..|]. intros _ _. apply lookup_delete_eq.
  - destruct b; simpl; split_and!; try done.
Qed.

(** C4, as the design document states it, fails: [deleteRecording] can
    complete on a collection that holds a record of the id, with no
    file-delete call rejecting, and leave the audio file of that record in
    place.  On [twins_world] two records carry the id, and only the file of
    the one listed first is deleted.  On [unreadable_world] the read of the
    collection rejects: [getRecordings] answers the empty list, no file-delete
    call is made, and the empty collection is written. *)
Lemma deleteRecording_can_leave_the_file :
  (∃ w',
     standup_saved ∈ stored twins_world ∧
     Storage.deleteRecording (id standup_saved) twins_world = (Returned tt, w') ∧
     next_fault (file_faults twins_world) = false ∧
     files w' !! audioUri standup_saved = Some (Some 65000)) ∧
  (∃ w',
     standup_saved ∈ stored unreadable_world ∧
     Storage.deleteRecording (id standup_saved) unreadable_world
       = (Returned tt, w') ∧
     next_fault (file_faults unreadable_world) = false ∧
     file_faults w' = file_faults unreadable_world ∧
     stored w' = [] ∧
     files w' !! audioUri standup_saved = Some (Some 65000)).
Proof.
  split.
  - eexists. split; [|split; [vm_compute; reflexivity|]].
    + apply list_elem_of_In. simpl. auto.
    + split; reflexivity.
  - eexists. split; [|split; [vm_compute; reflexivity|]].
    + apply list_elem_of_In. simpl. auto.
    + split_and!; reflexivity.
Qed.

(** C4, amended: on a collection that holds a record [r] with id [x], ids
    being unique in it and the collection being read, once [deleteRecording x]
    has returned, [getRecordings] lists no record with id [x], and the audio
    file of [r] is gone when the file-delete call did not reject.  The
    deletion of the file never stops the removal: whatever the file system
    holds or answers, the call returns as soon as the write of the collection
    goes through, and the collection then is the listed one without [x]. *)
Theorem deleteRecording_removes_record_and_file w x l r :
  item w = Some (JsonArray l) → r ∈ l → id r = x → NoDup (id <$> l) →
  next_fault (storage_faults w) = false →
  (∀ w', Storage.deleteRecording x w = (Returned tt, w') →
     (∃ l' w'', Storage.getRecordings w' = (Returned l', w'') ∧
                ∀ r', r' ∈ l' → id r' ≠ x) ∧
     (next_fault (file_faults w) = false → files w' !! audioUri r = None)) ∧
  (next_fault (tail (storage_faults w)) = false →
     ∃ w', Storage.deleteRecording x w = (Returned tt, w') ∧
           stored w' = filter (λ r', id r' ≠ x)
                         (Storage.Array_sort Storage.byCreatedAtDesc l)).
Proof.
  intros Hitem Hr Hid Hnd Hread.
  rewrite deleteRecording_eq. unfold listed. rewrite Hread. cbn zeta.
  assert (stored w = l) as -> by (unfold stored; by rewrite Hitem).
  set (sorted := Storage.Array_sort Storage.byCreatedAtDesc l).
  destruct (Storage.find_by_id x sorted) as [r0|] eqn:Hfind; cycle 1.
  { exfalso. eapply find_by_id_None; [done| |done]. by apply elem_of_Array_sort. }
  apply find_by_id_Some in Hfind as [Hr0 Hid0].
  apply elem_of_Array_sort in Hr0.
  assert (r0 = r) as -> by (eapply (NoDup_fmap_elem_eq id); eauto; congruence).
  set (w1 := with_storage_faults _ w).
  destruct (deleteAsync_frame (audioUri r) true w1) as (Hi & Hs & Hf).
  set (w2 := snd (FileSystem.deleteAsync (audioUri r) true w1)) in *.
  unfold AsyncStorage.setItem. rewrite Hs. simpl.
  split.
  - intros w'. destruct (next_fault (tail (storage_faults w))); [done|].
    intros [= <-]. split.
    + eexists _, _. rewrite getRecordings_eq. split; [done|].
      intros r'. case_match; [by intros ?%elem_of_nil|].
      unfold stored; simpl. rewrite elem_of_Array_sort, list_elem_of_filter.
      tauto.
    + simpl. intros ?. by apply Hf.
  - intros ->. eexists. split; [done|]. done.
Qed.

Lemma deleteRecording_removes_record_and_file_witness :
  let w := one_recording_world in
  let x := "1700000000000" in
  (∀ w', Storage.deleteRecording x w = (Returned tt, w') →
     (∃ l' w'', Storage.getRecordings w' = (Returned l', w'') ∧
                ∀ r', r' ∈ l' → id r' ≠ x) ∧
     (next_fault (file_faults w) = false →
      files w' !! audioUri standup_saved = None)) ∧
  (next_fault (tail (storage_faults w)) = false →
     ∃ w', Storage.deleteRecording x w = (Returned tt, w') ∧
           stored w' = filter (λ r', id r' ≠ x)
                         (Storage.Array_sort Storage.byCreatedAtDesc
                            [standup_saved])).
Proof.
  intros w x.
  apply (deleteRecording_removes_record_and_file w x [standup_saved] standup_saved).
  - reflexivity.
  - apply list_elem_of_singleton. reflexivity.
  - reflexivity.
  - apply (bool_decide_unpack _). vm_compute. exact I.
  - reflexivity.
Defined.

(** X1.  When the read of the collection rejects, [deleteRecording] still
    resolves: [getRecordings] has answered the empty list, so no file is
    touched and the empty collection is written over the stored one. *)
Theorem deleteRecording_after_rejected_read x w :
  next_fault (storage_faults w) = true →
  next_fault (tail (storage_faults w)) = false →
  ∃ w', Storage.deleteRecording x w = (Returned tt, w') ∧
        item w' = Some (JsonArray []) ∧ files w' = files w.
Proof.
  intros Hread Hwrite. rewrite deleteRecording_eq. unfold listed.
  rewrite Hread. cbn. unfold AsyncStorage.setItem. simpl. rewrite Hwrite.
  by eexists.
Qed.

Lemma deleteRecording_after_rejected_read_witness :
  ∃ w', Storage.deleteRecording "1700000000000" unreadable_world
          = (Returned tt, w') ∧
        item w' = Some (JsonArray []) ∧
        files w' = {[ "file://a.m4a" := Some 65000 ]}.
Proof.
  exact (deleteRecording_after_rejected_read "1700000000000" unreadable_world
           eq_refl eq_refl).
Defined.

(** X2.  [saveRecording] reads the stored text itself and does not go through
    [getRecordings]: on a text that is not JSON the call rejects with the
    error of [JSON.parse], and the stored text stays as it was. *)
Theorem saveRecording_rejects_on_malformed f w :
  item w = Some Malformed →
  next_fault (storage_faults w) = false →
  ∃ w', Storage.saveRecording f w = (Thrown SyntaxError, w') ∧
        item w' = Some Malformed.
Proof.
  destruct w as [it fs ss ck sf ff af nw ac u lc]. simpl. intros -> Hread.
  unfold Storage.saveRecording, Date_now, AsyncStorage.getItem. unfold_monad.
  destruct ck as [|t1 [|t2 ck]], sf as [|[] sf]; try done; simpl; by eexists.
Qed.

Lemma saveRecording_rejects_on_malformed_witness :
  ∃ w', Storage.saveRecording standup malformed_world = (Thrown SyntaxError, w') ∧
        item w' = Some Malformed.
Proof.
  exact (saveRecording_rejects_on_malformed standup malformed_world
           eq_refl eq_refl).
Defined.

(** ** app/(tabs)/index.tsx *)

Lemma copy_to_permanent_fallback tempUri w :
  next_fault (file_faults w) = true →
  RecordScreen.copy_to_permanent tempUri w =
    (Returned tempUri,
     with_file_faults (tail (file_faults w)) (with_clock (tail (clock w)) w)).
Proof.
  intros Hf. unfold RecordScreen.copy_to_permanent, Date_now, FileSystem.copyAsync.
  unfold_monad. destruct w as [it fl sn ck sf ff af nw ac u lc]; simpl in *.
  destruct ck; simpl; rewrite Hf; done.
Qed.

(** C5: when the copy of the temporary capture file to permanent storage
    fails, [stop] goes on with the temporary locator: with the capture file
    in place and the audio calls going through, it returns, hands the
    temporary locator and the probed duration to the review screen, shows no
    alert, and leaves the screen idle. *)
Theorem stop_falls_back_to_temporary_locator w st rec duration :
  RecordScreen.recording st = Some rec →
  files w !! Audio.getURI rec = Some duration →
  next_fault (file_faults w) = true →
  no_fault 4 (audio_faults w) = true →
  ∃ w' st',
    RecordScreen.stop (w, st) = (Returned tt, (w', st')) ∧
    ui w' = ui w ++ [Navigate "Review"
                       (mkParams (Audio.getURI rec) (or_zero duration) None None)] ∧
    RecordScreen.audioUri st' = Some (Audio.getURI rec) ∧
    RecordScreen.audioDuration st' = or_zero duration ∧
    RecordScreen.recording st' = None ∧
    RecordScreen.isLoading st' = false.
Proof.
  intros Hrec Hfile Hcopy Haudio.
  unfold RecordScreen.stop. unfold_monad. rewrite Hrec. simpl.
  unfold Audio.stopAndUnloadAsync.
  destruct w as [it fl sn ck sf ff af nw ac u lc]; simpl in *.
  destruct af as [|[] [|[] [|[] [|[] af]]]]; try discriminate Haudio; simpl;
  rewrite copy_to_permanent_fallback by done; simpl;
  unfold Audio.loadAsync, Audio.getStatusAsync, Audio.unloadAsync, Audio.call,
     Audio.store, emit; unfold_monad; simpl; rewrite Hfile; simpl;
  rewrite lookup_insert_eq; simpl;
  eexists _, _; (split; [reflexivity|]); simpl; done.
Qed.

Lemma stop_falls_back_to_temporary_locator_witness :
  ∃ w' st',
    RecordScreen.stop (capturing_world [true], recording_state)
      = (Returned tt, (w', st')) ∧
    ui w' = ui (capturing_world [true]) ++
            [Navigate "Review"
               (mkParams (Audio.getURI capture) (or_zero (Some 3000)) None None)] ∧
    RecordScreen.audioUri st' = Some (Audio.getURI capture) ∧
    RecordScreen.audioDuration st' = or_zero (Some 3000) ∧
    RecordScreen.recording st' = None ∧
    RecordScreen.isLoading st' = false.
Proof.
  apply (stop_falls_back_to_temporary_locator
           (capturing_world [true]) recording_state capture (Some 3000));
    reflexivity.
Defined.

(** ** screens/ReviewScreen.tsx: playback *)

#[local] Arguments or_zero : simpl never.

Lemma or_zero_Some z : or_zero (Some z) = z.
Proof. unfold or_zero. by case_decide. Qed.

Section loaded_sound.
Context (w : World) (h : nat) (s : Sound) (uri : string).
Hypothesis Hs : sounds w !! h = Some s.
Hypothesis Hloaded : loaded s = Some uri.
Hypothesis Hok : next_fault (audio_faults w) = false.

Lemma getStatusAsync_loaded :
  Audio.getStatusAsync h w =
    (Returned (Audio.StatusLoaded s), after_call (CallGetStatus h) w).
Proof.
  unfold Audio.getStatusAsync, Audio.call. unfold_monad.
  rewrite Hok. simpl. by rewrite Hs, Hloaded.
Qed.

Lemma setPositionAsync_loaded p :
  Audio.setPositionAsync h p w =
    (Returned tt,
     with_sounds (<[h := mkSound (loaded s) (isPlaying s) (Audio.clamp_position s p)
                          (durationMillis s) false (volume s) (isMuted s)]>
                    (sounds w))
       (after_call (CallSetPosition h p) w)).
Proof.
  unfold Audio.setPositionAsync, Audio.call, Audio.the_loaded, Audio.store.
  unfold_monad. rewrite Hok. simpl. rewrite Hs.
  destruct (loaded s) eqn:E; [|discriminate]. simpl. by rewrite ?E.
Qed.

Lemma setVolumeAsync_loaded v :
  Audio.setVolumeAsync h v w =
    (Returned tt,
     with_sounds (<[h := mkSound (loaded s) (isPlaying s) (positionMillis s)
                          (durationMillis s) (didJustFinish s) v (isMuted s)]>
                    (sounds w))
       (after_call (CallSetVolume h v) w)).
Proof.
  unfold Audio.setVolumeAsync, Audio.call, Audio.the_loaded, Audio.store.
  unfold_monad. rewrite Hok. simpl. rewrite Hs.
  destruct (loaded s) eqn:E; [|discriminate]. simpl. by rewrite ?E.
Qed.

Lemma setIsMutedAsync_loaded m :
  Audio.setIsMutedAsync h m w =
    (Returned tt,
     with_sounds (<[h := mkSound (loaded s) (isPlaying s) (positionMillis s)
                          (durationMillis s) (didJustFinish s) (volume s) m]>
                    (sounds w))
       (after_call (CallSetIsMuted h m) w)).
Proof.
  unfold Audio.setIsMutedAsync, Audio.call, Audio.the_loaded, Audio.store.
  unfold_monad. rewrite Hok. simpl. rewrite Hs.
  destruct (loaded s) eqn:E; [|discriminate]. simpl. by rewrite ?E.
Qed.

Lemma playAsync_loaded :
  Audio.playAsync h w =
    (Returned tt,
     with_sounds (<[h := mkSound (loaded s) true (positionMillis s)
                          (durationMillis s) false (volume s) (isMuted s)]>
                    (sounds w))
       (after_call (CallPlay h) w)).
Proof.
  unfold Audio.playAsync, Audio.call, Audio.the_loaded, Audio.store.
  unfold_monad. rewrite Hok. simpl. rewrite Hs.
  destruct (loaded s) eqn:E; [|discriminate]. simpl. by rewrite ?E.
Qed.

(** The test of [togglePlayPause] on the status of a loaded sound. *)
Lemma replay_condition :
  Audio.status_didJustFinish (Audio.StatusLoaded s)
  || bool_decide (or_zero (Audio.status_positionMillis (Audio.StatusLoaded s))
                  >= or_zero (Audio.status_durationMillis (Audio.StatusLoaded s)) - 100)
  = bool_decide (finished s).
Proof.
  simpl. rewrite or_zero_Some. destruct (decide (finished s)) as [Hf|Hf].
  - rewrite (bool_decide_eq_true_2 _ Hf). destruct Hf as [->|Hf]; [done|].
    rewrite (bool_decide_eq_true_2 _ Hf). apply orb_true_r.
  - rewrite (bool_decide_eq_false_2 _ Hf). apply orb_false_iff. split.
    + destruct (didJustFinish s) eqn:Hd; [|done]. destruct Hf. by left.
    + apply bool_decide_eq_false_2. intros ?. apply Hf. by right.
Qed.

End loaded_sound.

Ltac step lem :=
  erewrite lem by (simpl; rewrite ?lookup_insert_eq; done);
  cbv beta iota zeta.

(** C6: on a loaded track that is paused, with the player's calls going
    through, [togglePlayPause] starts playback.  When the status reports the
    position at or past the duration less 100 ms, or [didJustFinish], it
    first sets the position to 0 and then plays, so that playback starts at
    0; otherwise it plays from the position the track is at. *)
Theorem togglePlayPause_replays_from_start w st h s uri :
  ReviewScreen.sound st = Some h →
  sounds w !! h = Some s →
  loaded s = Some uri →
  isPlaying s = false →
  no_fault 5 (audio_faults w) = true →
  ∃ w' st' s',
    ReviewScreen.togglePlayPause (w, st) = (Returned tt, (w', st')) ∧
    sounds w' !! h = Some s' ∧
    isPlaying s' = true ∧
    ReviewScreen.isPlaying st' = true ∧
    if decide (finished s) then
      audio_calls w' = audio_calls w ++
        [CallGetStatus h; CallSetPosition h 0; CallSetVolume h 100;
         CallSetIsMuted h false; CallPlay h] ∧
      positionMillis s' = 0 ∧
      ReviewScreen.audioProgress st' = 0
    else
      audio_calls w' = audio_calls w ++
        [CallGetStatus h; CallSetVolume h 100; CallSetIsMuted h false;
         CallPlay h] ∧
      positionMillis s' = positionMillis s ∧
      ReviewScreen.audioProgress st' = ReviewScreen.audioProgress st.
Proof.
  intros Hsound Hs Hloaded Hpaused Hfaults.
  unfold ReviewScreen.togglePlayPause. unfold_monad. rewrite Hsound.
  destruct w as [it fl sn ck sf ff af nw ac u lc]; simpl in Hs, Hfaults.
  destruct af as [|[] [|[] [|[] [|[] [|[] af]]]]]; try discriminate Hfaults;
    step getStatusAsync_loaded;
    rewrite (replay_condition s);
    cbn [Audio.status_isPlaying]; rewrite Hpaused;
    (destruct (decide (finished s)) as [Hfin|Hfin];
     [rewrite (bool_decide_eq_true_2 _ Hfin); step setPositionAsync_loaded
     |rewrite (bool_decide_eq_false_2 _ Hfin)];
     step setVolumeAsync_loaded; step setIsMutedAsync_loaded;
     step playAsync_loaded;
     eexists _, _, _; (split; [reflexivity|]); simpl;
     rewrite ?lookup_insert_eq, <-?(assoc_L (++)); simpl;
     split_and!; try done).
  all: try (unfold Audio.clamp_position; destruct (durationMillis s); simpl; lia).
Qed.

Lemma togglePlayPause_replays_from_start_witness :
  let st := ReviewScreen.setAudioProgress 10000
              (ReviewScreen.setSound (Some 0%nat)
                 (ReviewScreen.initial fresh_params)) in
  ∃ w' st' s',
    ReviewScreen.togglePlayPause (played_world, st) = (Returned tt, (w', st')) ∧
    sounds w' !! 0%nat = Some s' ∧
    isPlaying s' = true ∧
    ReviewScreen.isPlaying st' = true ∧
    audio_calls w' =
      [CallGetStatus 0; CallSetPosition 0 0; CallSetVolume 0 100;
       CallSetIsMuted 0 false; CallPlay 0] ∧
    positionMillis s' = 0 ∧
    ReviewScreen.audioProgress st' = 0.
Proof.
  intros st.
  exact (togglePlayPause_replays_from_start played_world st 0%nat played_track
           "file://a.m4a" eq_refl eq_refl eq_refl eq_refl eq_refl).
Defined.

(** ** screens/ReviewScreen.tsx: actionable points *)


Lemma elem_of_listed r w : r ∈ listed w → r ∈ stored w.
Proof.
  unfold listed. destruct (next_fault _); [by intros ?%elem_of_nil|].
  by rewrite elem_of_Array_sort.
Qed.










(** A successful extraction puts the points of the answer in the place of
    the list the screen had. *)
Lemma extractActionablePoints_success w st status text points error rest :
  ReviewScreen.truthy (ReviewScreen.currentServerResult st ≫= full_text) = true →
  network w = extracted status text points error :: rest →
  ∃ w' st',
    ReviewScreen.extractActionablePoints (w, st) = (Returned tt, (w', st')) ∧
    ReviewScreen.actionablePoints st' = points ∧
    ReviewScreen.currentServerResult st' = ReviewScreen.currentServerResult st ∧
    ReviewScreen.activeTab st' = ReviewScreen.actionable_tab ∧
    network w' = rest.
Proof.
  intros Htext Hnet.
  unfold ReviewScreen.extractActionablePoints. unfold_monad.
  rewrite Htext. cbn [negb]. cbv beta iota zeta. unfold fetch. rewrite Hnet.
  unfold extracted. cbv beta iota zeta. cbn [negb b_ok b_actionablePoints].
  cbv beta iota zeta. unfold emit. unfold_monad.
  eexists _, _. split; [reflexivity|]. done.
Qed.

(** C9: of two successful extractions in a row, the second leaves on the
    screen exactly the points of its own answer (and the first those of
    its own): nothing of the first list is kept or merged in. *)
Theorem extraction_replaces_wholesale w st status1 text1 points1 error1
    status2 text2 points2 error2 rest :
  ReviewScreen.truthy (ReviewScreen.currentServerResult st ≫= full_text) = true →
  network w = extracted status1 text1 points1 error1
              :: extracted status2 text2 points2 error2 :: rest →
  ∃ w1 st1 w2 st2,
    ReviewScreen.extractActionablePoints (w, st) = (Returned tt, (w1, st1)) ∧
    ReviewScreen.actionablePoints st1 = points1 ∧
    ReviewScreen.extractActionablePoints (w1, st1) = (Returned tt, (w2, st2)) ∧
    ReviewScreen.actionablePoints st2 = points2.
Proof.
  intros Htext Hnet.
  destruct (extractActionablePoints_success _ _ _ _ _ _ _ Htext Hnet)
    as (w1 & st1 & Hrun1 & Hp1 & Hsr1 & _ & Hnet1).
  rewrite <-Hsr1 in Htext.
  destruct (extractActionablePoints_success _ _ _ _ _ _ _ Htext Hnet1)
    as (w2 & st2 & Hrun2 & Hp2 & _).
  eauto 10.
Qed.

Lemma extraction_replaces_wholesale_witness :
  ∃ w1 st1 w2 st2,
    ReviewScreen.extractActionablePoints (extracting_world, transcribed_state)
      = (Returned tt, (w1, st1)) ∧
    ReviewScreen.actionablePoints st1 = [call_alice; send_notes] ∧
    ReviewScreen.extractActionablePoints (w1, st1) = (Returned tt, (w2, st2)) ∧
    ReviewScreen.actionablePoints st2 = [book_room].
Proof.
  exact (extraction_replaces_wholesale extracting_world transcribed_state
           200 "" [call_alice; send_notes] None 200 "" [book_room] None []
           eq_refl eq_refl).
Defined.

(* ===================================================================== *)
(** ** components/WaveformComponent.tsx *)
(* ===================================================================== *)

(** *** Rounding to binary64 *)

Lemma digits2_pos_bounds m :
  2 ^ (Zpos (digits2_pos m) - 1) ≤ Zpos m < 2 ^ Zpos (digits2_pos m).
Proof.
  induction m as [m IH|m IH|]; simpl digits2_pos; [| |done].
  - rewrite Pos2Z.inj_succ.
    replace (Z.succ (Zpos (digits2_pos m)) - 1) with (Z.succ (Zpos (digits2_pos m) - 1)) by lia.
    rewrite !Z.pow_succ_r by lia. lia.
  - rewrite Pos2Z.inj_succ.
    replace (Z.succ (Zpos (digits2_pos m)) - 1) with (Z.succ (Zpos (digits2_pos m) - 1)) by lia.
    rewrite !Z.pow_succ_r by lia. lia.
Qed.

(** One shift to the right halves the scale and keeps the location. *)
Lemma shr_1_located mrs N D :
  located mrs N D → located (shr_1 mrs) N (2 * D).
Proof.
  destruct mrs as [m r s]. unfold located. simpl.
  intros (Hm & HD & Hrho & Hr & Hs).
  assert (r || s = true ↔ N - m * D ≠ 0) as Hrs.
  { rewrite orb_true_iff, Hr, Hs. lia. }
  destruct m as [|[p|p|]|p]; simpl in *; try lia;
    rewrite Hrs; clear Hrs Hr Hs;
    split_and!; try lia; split; intros; try done; try lia.
Qed.

Lemma iter_shr_1_located p : ∀ mrs N D,
  located mrs N D → located (SpecFloat.iter_pos shr_1 p mrs) N (2 ^ Zpos p * D).
Proof.
  induction p as [p IH|p IH|]; intros mrs N D H; simpl SpecFloat.iter_pos.
  - apply shr_1_located in H. apply IH, IH in H.
    replace (2 ^ Zpos p~1 * D) with (2 ^ Zpos p * (2 ^ Zpos p * (2 * D))); [done|].
    assert (2 ^ Zpos p~1 = 2 ^ Zpos p * 2 ^ Zpos p * 2) as ->
      by (replace (Zpos p~1) with (Zpos p + Zpos p + 1) by lia;
          rewrite !Z.pow_add_r by lia; reflexivity).
    ring.
  - apply IH, IH in H.
    replace (2 ^ Zpos p~0 * D) with (2 ^ Zpos p * (2 ^ Zpos p * D)); [done|].
    assert (2 ^ Zpos p~0 = 2 ^ Zpos p * 2 ^ Zpos p) as ->
      by (rewrite <-Z.pow_add_r by lia; f_equal; lia).
    ring.
  - apply shr_1_located in H. by rewrite Z.pow_1_r.
Qed.

(** So does [shr], by [n] positions. *)
Lemma shr_located mrs e n N D :
  located mrs N D → 0 ≤ n →
  located (fst (shr mrs e n)) N (2 ^ n * D) ∧ snd (shr mrs e n) = e + n.
Proof.
  intros H Hn. destruct n as [|p|p]; simpl; [|by split; [apply iter_shr_1_located|]|lia].
  split; [|lia]. by rewrite Z.mul_1_l.
Qed.

Lemma located_of_loc_Exact m : 0 ≤ m → located (shr_record_of_loc m loc_Exact) m 1.
Proof. intros. unfold located. simpl. split_and!; try lia; split; intros; try done; lia. Qed.

(** Rounding to nearest, ties to even, moves to a neighbour of [N / D]. *)
Lemma round_nearest_even_located mrs N D :
  located mrs N D →
  let m1 := round_nearest_even (shr_m mrs) (loc_of_shr_record mrs) in
  shr_m mrs ≤ m1 ≤ shr_m mrs + 1 ∧
  (2 * (N - shr_m mrs * D) < D → m1 = shr_m mrs) ∧
  (D < 2 * (N - shr_m mrs * D) → m1 = shr_m mrs + 1).
Proof.
  destruct mrs as [m r s]. unfold located. simpl.
  intros (Hm & HD & Hrho & Hr & Hs).
  destruct r, s; simpl; try destruct (Z.even m); intuition (try lia; try discriminate).
Qed.

(** The number of binary digits. *)
Lemma Zdigits2_bounds m :
  0 ≤ m → m < 2 ^ Zdigits2 m ∧ (0 < m → 2 ^ (Zdigits2 m - 1) ≤ m) ∧ 0 ≤ Zdigits2 m.
Proof.
  intros Hm. destruct m as [|p|p]; simpl; [split_and!; lia| |lia].
  pose proof (digits2_pos_bounds p). split_and!; lia.
Qed.

Lemma pow2_lt_inv a b : 0 ≤ b → 2 ^ a < 2 ^ b → a < b.
Proof.
  intros Hb H. destruct (decide (a < b)) as [|Hn]; [done|].
  assert (2 ^ b ≤ 2 ^ a) by (apply Z.pow_le_mono_r; lia). lia.
Qed.

Lemma fexp64_spec e : fexp64 e = Z.max (e - 53) (-1074).
Proof. reflexivity. Qed.

Lemma shr_nonpos mrs e n : n ≤ 0 → shr mrs e n = (mrs, e).
Proof. destruct n; simpl; [done|lia|done]. Qed.

(** The second shift of [binary_round_aux] acts only when the rounding has
    carried to [2^53]. *)
Lemma second_shift m1 e1 :
  0 ≤ m1 ≤ 2 ^ 53 → -1074 ≤ e1 →
  (let '(mrs, e) := shr_fexp prec emax m1 e1 loc_Exact in
   match shr_m mrs with
   | Z0 => S754_zero false
   | Zpos m => if e <=? emax - prec then S754_finite false m e else S754_infinity false
   | Zneg _ => S754_nan
   end) = rounded m1 e1.
Proof.
  intros Hm He. unfold shr_fexp, rounded.
  destruct (Zdigits2_bounds m1) as (Hub & Hlb & Hd); [lia|].
  rewrite fexp64_spec.
  destruct (decide (m1 = 0)) as [->|Hne].
  { simpl Zdigits2. rewrite shr_nonpos by lia. done. }
  destruct (decide (m1 = 2 ^ 53)) as [->|Hne'].
  { change (Zdigits2 (2 ^ 53)) with 54.
    replace (Z.max (54 + e1 - 53) (-1074) - e1) with 1 by lia.
    change (shr (shr_record_of_loc (2 ^ 53) loc_Exact) e1 1)
      with (Build_shr_record (2 ^ 52) false false, e1 + 1).
    reflexivity. }
  assert (Zdigits2 m1 ≤ 53).
  { assert (Zdigits2 m1 - 1 < 53); [|lia]. apply pow2_lt_inv; lia. }
  rewrite shr_nonpos by lia. simpl.
  destruct m1; simpl; try lia. done.
Qed.

(** [binary_round_aux] on a mantissa located at [N / D]: the result is
    [rounded m1 e1] for one of the two neighbours [m1] of the scaled number,
    the nearer one. *)
Lemma binary_round_aux_shape mz ez lz N D :
  located (shr_record_of_loc mz lz) N D →
  let e1 := fexp64 (Zdigits2 mz + ez) in
  ez ≤ e1 →
  ∃ q m1,
    let D' := 2 ^ (e1 - ez) * D in
    0 ≤ q ∧
    0 ≤ N - q * D' < D' ∧
    q ≤ m1 ≤ q + 1 ∧
    (2 * (N - q * D') < D' → m1 = q) ∧
    (D' < 2 * (N - q * D') → m1 = q + 1) ∧
    q < 2 ^ 53 ∧
    (-1074 < e1 → 2 ^ 52 ≤ q) ∧
    binary_round_aux prec emax false mz ez lz = rounded m1 e1.
Proof.
  intros Hloc e1 Hn.
  assert (shr_m (shr_record_of_loc mz lz) = mz) as Hmz by (by destruct lz as [|[]]).
  pose proof Hloc as (Hmz0 & HD & Hrho & _). rewrite Hmz in Hmz0, Hrho.
  destruct (shr_located _ ez (e1 - ez) N D Hloc) as [Hloc1 He1]; [lia|].
  unfold binary_round_aux, shr_fexp at 1. fold e1.
  destruct (shr (shr_record_of_loc mz lz) ez (e1 - ez)) as [mrs' e'] eqn:E.
  simpl in Hloc1, He1. subst e'. replace (ez + (e1 - ez)) with e1 by lia.
  pose proof (round_nearest_even_located mrs' N _ Hloc1) as (Hm1 & Hdown & Hup).
  destruct Hloc1 as (Hq & HD' & Hrho' & _).
  set (q := shr_m mrs') in *.
  set (m1 := round_nearest_even q (loc_of_shr_record mrs')) in *.
  set (n := e1 - ez) in *.
  destruct (Zdigits2_bounds mz) as (Hub & Hlb & Hd); [done|].
  assert (0 < 2 ^ n) by (apply Z.pow_pos_nonneg; lia).
  assert (q < 2 ^ 53) as Hq53.
  { assert (2 ^ Zdigits2 mz ≤ 2 ^ (n + 53)) as Hle.
    { apply Z.pow_le_mono_r; [lia|]. unfold n, e1. rewrite fexp64_spec. lia. }
    rewrite Z.pow_add_r in Hle by lia. nia. }
  assert (-1074 < e1 → 2 ^ 52 ≤ q) as Hq52.
  { intros He. assert (Zdigits2 mz = n + 53) as Hdig.
    { unfold n, e1 in *. rewrite fexp64_spec in *. lia. }
    assert (0 < mz).
    { destruct mz; [simpl in Hdig|done|lia]. lia. }
    specialize (Hlb ltac:(done)). rewrite Hdig in Hlb.
    replace (n + 53 - 1) with (n + 52) in Hlb by lia.
    rewrite Z.pow_add_r in Hlb by lia. nia. }
  exists q, m1. cbv zeta. split_and!; try done; try lia.
  replace (ez + n) with e1 by (unfold n; lia).
  apply second_shift; [lia|]. unfold e1. rewrite fexp64_spec. lia.
Qed.

(** The rounded mantissa is canonical at its exponent. *)
Lemma bounded_rounded m1 e1 :
  0 < m1 < 2 ^ 53 → (-1074 < e1 → 2 ^ 52 ≤ m1) → -1074 ≤ e1 ≤ 971 →
  bounded prec emax (Z.to_pos m1) e1 = true.
Proof.
  intros Hm Hnormal He. unfold bounded, canonical_mantissa.
  apply andb_true_iff. split; [|apply Z.leb_le; change (emax - prec) with 971; lia].
  apply Z.eqb_eq. rewrite fexp64_spec.
  destruct m1 as [|p|p]; try lia. rewrite Pos2Z.id.
  pose proof (digits2_pos_bounds p) as [Hlb Hub].
  assert (Zpos (digits2_pos p) ≤ 53).
  { assert (Zpos (digits2_pos p) - 1 < 53); [|lia]. apply pow2_lt_inv; lia. }
  destruct (decide (e1 = -1074)) as [->|]; [lia|].
  assert (52 < Zpos (digits2_pos p)); [|lia].
  apply pow2_lt_inv; [lia|]. specialize (Hnormal ltac:(lia)). lia.
Qed.

(** Bounds on the rounded result from bounds on the number that is rounded:
    rounding is monotone, and [K * 2^E] is a double. *)
Section round_bounds.
Context (mz ez : Z) (lz : location) (N D K E : Z).
Hypothesis Hloc : located (shr_record_of_loc mz lz) N D.
Hypothesis Hshift : ez ≤ fexp64 (Zdigits2 mz + ez).
Hypothesis HK : 2 ^ 52 ≤ K < 2 ^ 53.
Hypothesis HE : -1074 ≤ E ≤ 971.

Lemma round_below :
  2 * N * 2 ^ (ez - Z.min ez E) < (2 * K + 1) * D * 2 ^ (E - Z.min ez E) →
  below (binary_round_aux prec emax false mz ez lz) K E.
Proof.
  intros Hval.
  destruct (binary_round_aux_shape mz ez lz N D Hloc Hshift)
    as (q & m1 & Hq & Hrho & Hm1 & Hdown & Hup & Hq53 & Hq52 & ->).
  set (e1 := fexp64 (Zdigits2 mz + ez)) in *.
  assert (-1074 ≤ e1) as He1 by (unfold e1; rewrite fexp64_spec; lia).
  set (n := e1 - ez) in *.
  assert (0 < 2 ^ n) as Hpn by (apply Z.pow_pos_nonneg; lia).
  destruct Hloc as (_ & HD & _).
  assert (e1 ≤ E) as HeE.
  { destruct (decide (e1 ≤ E)) as [|Hgt]; [done|exfalso].
    specialize (Hq52 ltac:(lia)).
    destruct (decide (ez ≤ E)) as [Hle|Hle].
    - rewrite Z.min_l, Z.sub_diag, Z.pow_0_r in Hval by lia.
      assert (2 * 2 ^ (E - ez) ≤ 2 ^ n).
      { rewrite <-Z.pow_succ_r by lia. apply Z.pow_le_mono_r; lia. }
      assert (0 < 2 ^ (E - ez)) by (apply Z.pow_pos_nonneg; lia).
      nia.
    - rewrite Z.min_r, Z.sub_diag, Z.pow_0_r in Hval by lia.
      assert (2 ^ 1 ≤ 2 ^ (ez - E)) by (apply Z.pow_le_mono_r; lia).
      nia. }
  assert (e1 = E → m1 ≤ K) as Hm1K.
  { intros ->. rewrite Z.min_l, Z.sub_diag, Z.pow_0_r in Hval by lia.
    fold n in Hval.
    assert (q ≤ K) by nia.
    destruct (decide (q = K)) as [->|]; [|lia].
    rewrite Hdown; [done|]. nia. }
  unfold rounded.
  destruct (decide (m1 = 0)); [done|].
  destruct (decide (m1 = 2 ^ 53)) as [Hov|Hne].
  - assert (e1 < E) by (destruct (decide (e1 = E)) as [He|]; [specialize (Hm1K He)|]; lia).
    rewrite (proj2 (Z.leb_le _ _)) by lia. simpl. split.
    + apply (bounded_rounded (2 ^ 52) (e1 + 1)); lia.
    + change (Z.pos 4503599627370496) with (2 ^ 52). lia.
  - rewrite (proj2 (Z.leb_le _ _)) by lia. simpl. split.
    + apply bounded_rounded; lia.
    + rewrite Z2Pos.id by lia. destruct (decide (e1 = E)) as [He|]; [specialize (Hm1K He)|]; lia.
Qed.

Lemma round_above :
  K * D * 2 ^ (E - Z.min ez E) ≤ N * 2 ^ (ez - Z.min ez E) →
  above (binary_round_aux prec emax false mz ez lz) K E.
Proof.
  intros Hval.
  destruct (binary_round_aux_shape mz ez lz N D Hloc Hshift)
    as (q & m1 & Hq & Hrho & Hm1 & Hdown & Hup & Hq53 & Hq52 & ->).
  set (e1 := fexp64 (Zdigits2 mz + ez)) in *.
  assert (-1074 ≤ e1) as He1 by (unfold e1; rewrite fexp64_spec; lia).
  set (n := e1 - ez) in *.
  assert (0 < 2 ^ n) as Hpn by (apply Z.pow_pos_nonneg; lia).
  destruct Hloc as (_ & HD & _).
  assert (E ≤ e1) as HeE.
  { destruct (decide (E ≤ e1)) as [|Hgt]; [done|exfalso].
    rewrite Z.min_l, Z.sub_diag, Z.pow_0_r in Hval by lia.
    assert (2 * 2 ^ n ≤ 2 ^ (E - ez)).
    { rewrite <-Z.pow_succ_r by lia. apply Z.pow_le_mono_r; lia. }
    assert (N < 2 ^ 53 * (2 ^ n * D)) by nia.
    assert (2 ^ 53 * (2 ^ n * D) ≤ 2 ^ 52 * (2 ^ (E - ez) * D)) by nia.
    assert (2 ^ 52 * (2 ^ (E - ez) * D) ≤ K * D * 2 ^ (E - ez)) by nia.
    lia. }
  assert (e1 = E → K ≤ q) as HqK.
  { intros ->. rewrite Z.min_l, Z.sub_diag, Z.pow_0_r in Hval by lia.
    fold n in Hval. nia. }
  assert (2 ^ 52 ≤ q) as Hq52'.
  { destruct (decide (e1 = E)) as [He|]; [specialize (HqK He); lia|].
    apply Hq52. lia. }
  unfold rounded.
  destruct (decide (m1 = 0)); [lia|].
  destruct (decide (m1 = 2 ^ 53)) as [Hov|Hne].
  - destruct (e1 + 1 <=? 971) eqn:Hfin; [|done]. apply Z.leb_le in Hfin.
    simpl. split.
    + apply (bounded_rounded (2 ^ 52) (e1 + 1)); lia.
    + lia.
  - destruct (e1 <=? 971) eqn:Hfin; [|done]. apply Z.leb_le in Hfin.
    simpl. split.
    + apply bounded_rounded; lia.
    + rewrite Z2Pos.id by lia.
      destruct (decide (e1 = E)) as [He|]; [specialize (HqK He)|]; lia.
Qed.

End round_bounds.

(** What [bounded] says of a mantissa and its exponent. *)
Lemma bounded_inv m e :
  bounded prec emax m e = true →
  Zpos m < 2 ^ 53 ∧ -1074 ≤ e ≤ 971 ∧ (-1074 < e → 2 ^ 52 ≤ Zpos m).
Proof.
  unfold bounded, canonical_mantissa. rewrite andb_true_iff, Z.eqb_eq, Z.leb_le.
  rewrite fexp64_spec. change (emax - prec) with 971. intros [Hc He].
  pose proof (digits2_pos_bounds m) as [Hlb Hub].
  assert (Zpos (digits2_pos m) ≤ 53) as Hd by lia.
  split_and!; try lia.
  - assert (2 ^ Zpos (digits2_pos m) ≤ 2 ^ 53) by (apply Z.pow_le_mono_r; lia). lia.
  - intros ?. by replace (Zpos (digits2_pos m)) with 53 in Hlb by lia.
Qed.

Lemma Zdigits2_ge_53 m : 2 ^ 52 ≤ m → 53 ≤ Zdigits2 m.
Proof.
  intros Hm. destruct (Zdigits2_bounds m) as (Hub & _ & Hd); [lia|].
  assert (52 < Zdigits2 m); [|lia]. apply pow2_lt_inv; lia.
Qed.

Lemma shift_ok_normal m e : 2 ^ 52 ≤ m → e ≤ fexp64 (Zdigits2 m + e).
Proof. intros ?%Zdigits2_ge_53. rewrite fexp64_spec. lia. Qed.

(** The alignment of exponents before an addition. *)
Lemma pos_iter_xO m d : Zpos (Pos.iter xO m d) = Zpos m * 2 ^ Zpos d.
Proof.
  revert m. induction d as [|d IH] using Pos.peano_ind; intros m.
  - by rewrite Pos.iter_succ_r || (simpl; lia).
  - rewrite Pos.iter_succ, Pos2Z.inj_xO, IH, Pos2Z.inj_succ, Z.pow_succ_r by lia. ring.
Qed.

Lemma shl_align_fst m e e' :
  e' ≤ e → Zpos (fst (shl_align m e e')) = Zpos m * 2 ^ (e - e').
Proof.
  intros He. unfold shl_align.
  destruct (e' - e) as [|p|p] eqn:Hd; simpl.
  - replace (e - e') with 0 by lia. lia.
  - lia.
  - rewrite pos_iter_xO. f_equal. f_equal. lia.
Qed.

Lemma shl_align_noop m e e' : e ≤ e' → shl_align m e e' = (m, e).
Proof. intros He. unfold shl_align. destruct (e' - e) eqn:Hd; try done. lia. Qed.

(** [r * 0.8] for [0 <= r < 1] *)
Lemma SFmul_08_below m e :
  bounded prec emax m e = true → e ≤ -53 →
  below (SF64mul (S754_finite false m e) (S754_finite false (Z.to_pos M1) (-53)))
        (M1 - 1) (-53).
Proof.
  intros (Hm & He & _)%bounded_inv He53.
  unfold SF64mul, SFmul. simpl xorb. rewrite Pos2Z.inj_mul.
  change (Zpos (Z.to_pos M1)) with M1.
  apply (round_below _ _ _ (Zpos m * M1) 1).
  - apply located_of_loc_Exact. lia.
  - apply shift_ok_normal. lia.
  - lia.
  - lia.
  - rewrite Z.min_l, Z.sub_diag, Z.pow_0_r by lia.
    replace (-53 - (e + -53)) with (- e) by lia.
    assert (2 ^ 53 ≤ 2 ^ (- e)) by (apply Z.pow_le_mono_r; lia).
    nia.
Qed.

(** [p + 0.1] for [0 <= p <= pred 0.8] *)
Lemma SFadd_01_bounds p :
  below p (M1 - 1) (-53) →
  below (SF64add p (S754_finite false (Z.to_pos M1) (-56))) (M9 - 1) (-53) ∧
  above (SF64add p (S754_finite false (Z.to_pos M1) (-56))) M1 (-56).
Proof.
  destruct p as [[]|[]| |[] m e]; try done.
  { intros _. simpl. split; (split; [done|lia]). }
  intros [Hb Hlex]. pose proof (bounded_inv _ _ Hb) as (Hm & He & _).
  unfold SF64add, SFadd. cbn [cond_Zopp].
  set (ez := Z.min e (-56)).
  rewrite !shl_align_fst by lia.
  change (Zpos (Z.to_pos M1)) with M1.
  set (s := Zpos m * 2 ^ (e - ez) + M1 * 2 ^ (-56 - ez)).
  assert (0 < 2 ^ (e - ez)) by (apply Z.pow_pos_nonneg; lia).
  assert (1 ≤ 2 ^ (-56 - ez)) by (apply (Z.pow_le_mono_r 2 0); lia).
  assert (2 ^ 52 ≤ s) by (unfold s; nia).
  destruct s as [|sp|sp] eqn:Hs; try lia.
  unfold binary_normalize, binary_round.
  rewrite shl_align_noop by (apply (shift_ok_normal (Zpos sp)); lia).
  split.
  - apply (round_below _ _ _ (Zpos sp) 1).
    + apply located_of_loc_Exact. lia.
    + apply shift_ok_normal. lia.
    + lia.
    + lia.
    + rewrite Z.min_l, Z.sub_diag, Z.pow_0_r by lia. rewrite <-Hs. unfold s.
      destruct (decide (e ≤ -56)) as [Hle|Hgt].
      * replace ez with e by lia. rewrite Z.sub_diag, Z.pow_0_r.
        replace (-53 - e) with (3 + (-56 - e)) by lia.
        rewrite Z.pow_add_r by lia.
        replace ez with e in * by lia. nia.
      * replace ez with (-56) by lia. simpl (2 ^ (-56 - -56)). simpl (2 ^ (-53 - -56)).
        assert (e = -55 ∨ e = -54 ∨ e = -53) as [-> | [-> | ->]] by lia; simpl; lia.
  - apply (round_above _ _ _ (Zpos sp) 1).
    + apply located_of_loc_Exact. lia.
    + apply shift_ok_normal. lia.
    + lia.
    + lia.
    + rewrite Z.min_l, Z.sub_diag, Z.pow_0_r by lia. rewrite <-Hs. unfold s. nia.
Qed.

(** The location of a remainder. *)
Lemma new_location_located D q r :
  0 < D → 0 ≤ q → 0 ≤ r < D →
  located (shr_record_of_loc q (new_location D r)) (q * D + r) D.
Proof.
  intros HD Hq Hr. unfold new_location, new_location_even, new_location_odd.
  destruct (Z.even D) eqn:Hpar.
  - destruct (Z.eqb_spec r 0) as [->|Hr0].
    + unfold located; simpl. split_and!; try lia; split; intros; try done; lia.
    + destruct (Z.compare_spec (2 * r) D); unfold located; simpl;
        split_and!; try lia; split; intros; try done; try lia.
  - assert (2 * r ≠ D).
    { intros <-. rewrite Z.even_mul in Hpar. done. }
    destruct (Z.eqb_spec r 0) as [->|Hr0].
    + unfold located; simpl. split_and!; try lia; split; intros; try done; lia.
    + destruct (Z.compare_spec (2 * r + 1) D); unfold located; simpl;
        split_and!; try lia; split; intros; try done; try lia.
Qed.

(** The quotient that [SFdiv] hands to the rounding, when dividing by 0.1. *)
Lemma div_core_01 m e :
  bounded prec emax m e = true →
  ∃ q e' l s,
    SFdiv_core_binary prec emax (Zpos m) e M1 (-56) = (q, e', l) ∧
    0 ≤ s ∧ e' = e + 56 - s ∧
    e' = fexp64 (Zdigits2 (Zpos m) + e + 3) ∧
    located (shr_record_of_loc q l) (Zpos m * 2 ^ s) M1 ∧
    e' ≤ fexp64 (Zdigits2 q + e').
Proof.
  intros Hb. pose proof (bounded_inv _ _ Hb) as (Hm & He & Hn).
  destruct (Zdigits2_bounds (Zpos m)) as (Hub & Hlb & Hd); [lia|].
  specialize (Hlb ltac:(lia)).
  assert (Zdigits2 (Zpos m) ≤ 53) as Hd53.
  { assert (Zdigits2 (Zpos m) - 1 < 53); [|lia]. apply pow2_lt_inv; lia. }
  unfold SFdiv_core_binary.
  change (Zdigits2 M1) with 53.
  set (d1 := Zdigits2 (Zpos m)) in *.
  replace (d1 + e - (53 + -56)) with (d1 + e + 3) by lia.
  replace (e - -56) with (e + 56) by lia.
  set (e' := Z.min (fexp64 (d1 + e + 3)) (e + 56)).
  assert (e' = fexp64 (d1 + e + 3)) as He'.
  { unfold e'. rewrite fexp64_spec. lia. }
  assert (-1074 ≤ e' < e + 56) as He'b by (rewrite He', fexp64_spec; lia).
  set (s := e + 56 - e') in *.
  destruct s as [|sp|sp] eqn:Hs; try lia.
  rewrite Z.shiftl_mul_pow2 by lia.
  pose proof (Z_div_mod (Zpos m * 2 ^ Zpos sp) M1 ltac:(lia)) as Hdiv.
  destruct (Z.div_eucl (Zpos m * 2 ^ Zpos sp) M1) as [q r].
  destruct Hdiv as [Hdiv Hr].
  assert (0 < 2 ^ Zpos sp) by (apply Z.pow_pos_nonneg; lia).
  assert (0 ≤ q) by nia.
  exists q, e', (new_location M1 r), (Zpos sp).
  split; [done|]. split; [lia|]. split; [lia|]. split; [done|]. split.
  - replace (Zpos m * 2 ^ Zpos sp) with (q * M1 + r) by lia.
    apply new_location_located; lia.
  - destruct (decide (e' = -1074)) as [->|Hne]; [rewrite fexp64_spec; lia|].
    apply shift_ok_normal.
    assert (Zpos sp = 106 - d1) as Hsp by (rewrite He', fexp64_spec in *; lia).
    assert (0 < d1) by (apply pow2_lt_inv; simpl; lia).
    assert (2 ^ 105 ≤ Zpos m * 2 ^ Zpos sp).
    { rewrite Hsp. replace 105 with (d1 - 1 + (106 - d1)) by lia.
      rewrite Z.pow_add_r by lia.
      apply Z.mul_le_mono_nonneg_r; lia. }
    change (2 ^ 105) with (2 ^ 52 * 2 ^ 53) in *. nia.
Qed.

(** [d / 0.1] for a finite [d > 0]: a rounded non-negative mantissa. *)
Lemma SFdiv_01_rounded m e :
  bounded prec emax m e = true →
  ∃ m1 e1, 0 ≤ m1 ∧
    SF64div (S754_finite false m e) (S754_finite false (Z.to_pos M1) (-56))
      = rounded m1 e1.
Proof.
  intros Hb. destruct (div_core_01 m e Hb) as (q & e' & l & s & Hcore & _ & _ & _ & Hloc & Hshift).
  unfold SF64div, SFdiv. change (Zpos (Z.to_pos M1)) with M1. rewrite Hcore.
  simpl xorb.
  destruct (binary_round_aux_shape q e' l _ _ Hloc Hshift)
    as (q' & m1 & Hq & _ & Hm1 & _ & _ & _ & _ & ->).
  exists m1, (fexp64 (Zdigits2 q + e')). split; [lia|done].
Qed.

(** [d / 0.1] for [0 < d < 0.1] *)
Lemma SFdiv_01_below m e :
  bounded prec emax m e = true →
  e < -56 ∨ (e = -56 ∧ Zpos m < M1) →
  below (SF64div (S754_finite false m e) (S754_finite false (Z.to_pos M1) (-56)))
        (2 ^ 53 - 1) (-53).
Proof.
  intros Hb Hlt. pose proof (bounded_inv _ _ Hb) as (Hm & He & _).
  destruct (div_core_01 m e Hb) as (q & e' & l & s & Hcore & Hs & He' & Hfexp & Hloc & Hshift).
  unfold SF64div, SFdiv. change (Zpos (Z.to_pos M1)) with M1. rewrite Hcore.
  simpl xorb.
  destruct (Zdigits2_bounds (Zpos m)) as (Hub & _ & Hd); [lia|].
  assert (Zdigits2 (Zpos m) ≤ 53) as Hd53.
  { assert (Zdigits2 (Zpos m) - 1 < 53); [|lia]. apply pow2_lt_inv; try lia.
    destruct (Zdigits2_bounds (Zpos m)) as (_ & Hlb & _); [lia|]. specialize (Hlb ltac:(lia)). lia. }
  assert (e' ≤ -53) by (rewrite Hfexp, fexp64_spec; lia).
  apply (round_below _ _ _ _ _ _ _ Hloc Hshift); [lia|lia|].
  rewrite Z.min_l, Z.sub_diag, Z.pow_0_r by lia.
  set (t := -53 - e').
  assert (0 < 2 ^ t) by (apply Z.pow_pos_nonneg; lia).
  destruct Hlt as [Hlt|[-> Hlt]].
  - assert (2 ^ s ≤ 2 ^ (52 + t)) as Hle by (apply Z.pow_le_mono_r; lia).
    rewrite Z.pow_add_r in Hle by lia. nia.
  - replace s with (53 + t) by lia. rewrite Z.pow_add_r by lia. nia.
Qed.

(** The order of [SFcompare] on non-negative finite floats. *)
Lemma SFltb_finite m e K E :
  SFltb (S754_finite false m e) (S754_finite false K E) = true ↔
  e < E ∨ (e = E ∧ Zpos m < Zpos K).
Proof.
  unfold SFltb, SFcompare. destruct (Z.compare_spec e E).
  - fold (Pos.compare m K).
    destruct (Pos.compare_spec m K); split; intros; try done; try lia.
  - split; [left; lia|done].
  - split; [done|lia].
Qed.

Lemma SFleb_finite m e K E :
  SFleb (S754_finite false m e) (S754_finite false K E) = true ↔
  e < E ∨ (e = E ∧ Zpos m ≤ Zpos K).
Proof.
  unfold SFleb, SFcompare. destruct (Z.compare_spec e E).
  - fold (Pos.compare m K).
    destruct (Pos.compare_spec m K); split; intros; try done; try lia.
  - split; [left; lia|done].
  - split; [done|lia].
Qed.

(** A valid float in [[0, K * 2^E)]. *)
Lemma nonneg_below_shape x K E :
  valid_binary x = true →
  SFleb (S754_zero false) x = true →
  SFltb x (S754_finite false K E) = true →
  (∃ s, x = S754_zero s) ∨
  ∃ m e, x = S754_finite false m e ∧ bounded prec emax m e = true ∧
         (e < E ∨ (e = E ∧ Zpos m < Zpos K)).
Proof.
  destruct x as [s|[]| |[] m e]; try done.
  - eauto.
  - intros Hv _ Hlt%SFltb_finite. right. eauto.
Qed.

(** *** The waveform *)

(** The three literals, as binary64 numbers. *)
Lemma Prim2SF_tenth : Prim2SF Waveform.tenth = S754_finite false (Z.to_pos M1) (-56).
Proof. reflexivity. Qed.
Lemma Prim2SF_eight_tenths : Prim2SF Waveform.eight_tenths = S754_finite false (Z.to_pos M1) (-53).
Proof. reflexivity. Qed.
Lemma Prim2SF_nine_tenths : Prim2SF Waveform.nine_tenths = S754_finite false (Z.to_pos M9) (-53).
Proof. reflexivity. Qed.

(** The two orders agree. *)
Lemma above_SFleb y K E :
  above y (Zpos K) E → SFleb (S754_finite false K E) y = true.
Proof.
  destruct y as [[]|[]| |[] m e]; try done.
  intros [_ H]. apply SFleb_finite. lia.
Qed.

Lemma below_SFltb y K E :
  below y (Zpos K - 1) E → SFltb y (S754_finite false K E) = true.
Proof.
  destruct y as [[]|[]| |[] m e]; try done.
  intros [_ H]. apply SFltb_finite. lia.
Qed.

(** The floor of a double under 1, and of a rounded quotient. *)
Lemma Math_floor_below_one x :
  below x (2 ^ 53 - 1) (-53) → Waveform.Math_floor x = Waveform.Int 0.
Proof.
  destruct x as [[]|[]| |[] m e]; try done.
  intros [Hb He]. pose proof (bounded_inv _ _ Hb) as (Hm & _ & _).
  destruct e as [|p|p]; try lia. simpl. f_equal.
  apply Z.div_small. split; [lia|].
  assert (2 ^ 53 ≤ 2 ^ Zpos p) by (apply Z.pow_le_mono_r; lia). lia.
Qed.

Lemma Math_floor_rounded m1 e1 :
  0 ≤ m1 →
  (∃ n, Waveform.Math_floor (rounded m1 e1) = Waveform.Int n ∧ 0 ≤ n) ∨
  rounded m1 e1 = S754_infinity false.
Proof.
  intros Hm1.
  assert (∀ m e, ∃ n, Waveform.Math_floor (S754_finite false m e) = Waveform.Int n ∧ 0 ≤ n)
    as Hfinite.
  { intros m e. eexists. split; [done|]. destruct e as [|p|p].
    - lia.
    - apply Z.mul_nonneg_nonneg; lia.
    - apply Z.div_pos; lia. }
  unfold rounded. repeat case_match; auto.
  left. by exists 0.
Qed.

(** What [0 <= d] leaves of a double. *)
Lemma nonneg_shape x :
  valid_binary x = true →
  SFleb (S754_zero false) x = true →
  (∃ s, x = S754_zero s) ∨ x = S754_infinity false ∨
  ∃ m e, x = S754_finite false m e ∧ bounded prec emax m e = true.
Proof. destruct x as [s|[]| |[] m e]; try done; eauto 10. Qed.

(** A double in [[0, 1)] is a zero, or has an exponent of -53 at most. *)
Lemma unit_interval_shape x :
  valid_binary x = true →
  SFleb (S754_zero false) x = true →
  SFltb x (Prim2SF 1) = true →
  (∃ s, x = S754_zero s) ∨
  ∃ m e, x = S754_finite false m e ∧ bounded prec emax m e = true ∧ e ≤ -53.
Proof.
  intros Hv H0 H1. change (Prim2SF 1) with (S754_finite false (Z.to_pos (2 ^ 52)) (-52)) in H1.
  destruct (nonneg_below_shape _ _ _ Hv H0 H1) as [?|(m & e & -> & Hb & He)]; [by left|].
  right. exists m, e. split_and!; try done.
  pose proof (bounded_inv _ _ Hb) as (_ & ? & Hn). 
  change (Zpos (Z.to_pos (2 ^ 52))) with (2 ^ 52) in He. lia.
Qed.

(** A draw scaled by 0.8 and shifted by 0.1 is an amplitude. *)
Lemma amplitude_range (r : float) :
  unit_interval r →
  amplitude (r * Waveform.eight_tenths + Waveform.tenth)%float.
Proof.
  unfold unit_interval, amplitude. intros [H0 H1]. revert H0 H1.
  rewrite !leb_spec, !ltb_spec, !add_spec, !mul_spec.
  rewrite Prim2SF_tenth, Prim2SF_eight_tenths, Prim2SF_nine_tenths.
  change (Prim2SF 0) with (S754_zero false).
  intros H0 H1.
  destruct (unit_interval_shape _ (Prim2SF_valid r) H0 H1)
    as [[s ->]|(m & e & -> & Hb & He)].
  - by destruct s.
  - pose proof (SFmul_08_below m e Hb He) as Hmul.
    destruct (SFadd_01_bounds _ Hmul) as [Hlt Hge].
    split; [by apply above_SFleb|by apply below_SFltb].
Qed.

(** The quotient [d / 0.1] for [0 <= d] is an integer from 0 on once
    floored, or [+Infinity]. *)
Lemma quotient_nonneg (d : float) :
  (0 <=? d)%float = true →
  (∃ n, Waveform.Math_floor (Prim2SF (d / Waveform.tenth)) = Waveform.Int n ∧ 0 ≤ n) ∨
  Prim2SF (d / Waveform.tenth) = S754_infinity false.
Proof.
  rewrite leb_spec, div_spec, Prim2SF_tenth. change (Prim2SF 0) with (S754_zero false).
  intros H0.
  destruct (nonneg_shape _ (Prim2SF_valid d) H0) as [[s ->] | [-> | (m & e & -> & Hb)]].
  - left. exists 0. by destruct s.
  - by right.
  - destruct (SFdiv_01_rounded m e Hb) as (m1 & e1 & Hm1 & ->).
    by apply Math_floor_rounded.
Qed.

(** It floors to 0 for [d < 0.1]. *)
Lemma quotient_below_one (d : float) :
  (0 <=? d)%float = true → (d <? Waveform.tenth)%float = true →
  Waveform.Math_floor (Prim2SF (d / Waveform.tenth)) = Waveform.Int 0.
Proof.
  rewrite leb_spec, ltb_spec, div_spec, Prim2SF_tenth. change (Prim2SF 0) with (S754_zero false).
  intros H0 H1.
  destruct (nonneg_below_shape _ _ _ (Prim2SF_valid d) H0 H1)
    as [[s ->]|(m & e & -> & Hb & He)].
  - by destruct s.
  - apply Math_floor_below_one, SFdiv_01_below; [done|].
    change (Zpos (Z.to_pos M1)) with M1 in He. lia.
Qed.

(** C10.  For a duration [d] with [0 <= d] and draws of [Math.random()] in
    [[0, 1)], [generateWaveformData(d)] holds exactly [min(100, floor(d / 0.1))]
    amplitudes, the quotient [d / 0.1] being the binary64 one: it is never
    negative nor [NaN], and the list has 100 entries when it is [+Infinity];
    every amplitude is in [[0.1, 0.9)]; and the list is empty for [d < 0.1]. *)
Theorem generateWaveformData_length_and_range (d : float) (random : nat → float) :
  (0 <=? d)%float = true →
  (∀ i, unit_interval (random i)) →
  let data := Waveform.generateWaveformData d random in
  let quotient := Prim2SF (d / Waveform.tenth) in
  ((∃ n, Waveform.Math_floor quotient = Waveform.Int n ∧ 0 ≤ n ∧
         Z.of_nat (length data) = Z.min 100 n) ∨
   (quotient = S754_infinity false ∧ length data = 100%nat)) ∧
  Forall amplitude data ∧
  ((d <? Waveform.tenth)%float = true → data = []).
Proof.
  intros Hd Hrandom data quotient. subst data quotient.
  unfold Waveform.generateWaveformData. split_and!.
  - rewrite length_fmap, length_seq.
    destruct (quotient_nonneg d Hd) as [(n & -> & Hn) | ->].
    + left. exists n. split_and!; try done. simpl. lia.
    + by right.
  - apply Forall_fmap, Forall_forall. intros i _. simpl.
    by apply amplitude_range.
  - intros Hlt. by rewrite (quotient_below_one d Hd Hlt).
Qed.

Lemma generateWaveformData_length_and_range_witness :
  (0 <=? quarter_second)%float = true ∧
  (∀ i, unit_interval (two_draws i)) ∧
  length (Waveform.generateWaveformData quarter_second two_draws) = 2%nat ∧
  Forall amplitude (Waveform.generateWaveformData quarter_second two_draws).
Proof.
  assert (∀ i, unit_interval (two_draws i)) as Hdraws.
  { intros i. unfold two_draws. destruct (Nat.even i); split; reflexivity. }
  split; [reflexivity|]. split; [exact Hdraws|]. split; [vm_compute; reflexivity|].
  exact (proj1 (proj2
    (generateWaveformData_length_and_range quarter_second two_draws eq_refl Hdraws))).
Defined.

(** X3.  Whatever the duration (negative, [NaN] and infinite ones included)
    and whatever the draws, the mock waveform has at most 100 entries. *)
Theorem generateWaveformData_at_most_100 (d : float) (random : nat → float) :
  (length (Waveform.generateWaveformData d random) ≤ 100)%nat.
Proof.
  unfold Waveform.generateWaveformData. rewrite length_fmap, length_seq.
  destruct (Waveform.Math_floor _) as [|[]|z]; simpl; lia.
Qed.

(* ===================================================================== *)
(** * Further properties: edge cases and compositions *)
(* ===================================================================== *)

(** ** utils/storage.ts: how the operations compose *)

(** [getRecording], step by step. *)
Lemma getRecording_eq x w :
  Storage.getRecording x w =
    (Returned (Storage.find_by_id x (listed w)),
     with_storage_faults (tail (storage_faults w)) w).
Proof.
  unfold Storage.getRecording. unfold_monad. by rewrite getRecordings_eq.
Qed.

(** The record found under an id that a single record of the list carries. *)
Lemma find_by_id_unique x l r :
  r ∈ l → id r = x → (∀ r', r' ∈ l → id r' = x → r' = r) →
  Storage.find_by_id x l = Some r.
Proof.
  intros Hr Hid Huniq.
  destruct (Storage.find_by_id x l) as [r0|] eqn:Hfind.
  - apply find_by_id_Some in Hfind as [Hr0 Hid0]. f_equal. by apply Huniq.
  - exfalso. by eapply find_by_id_None.
Qed.

(** X4.  A record that [saveRecording] has returned is the one that
    [getRecording] gives back for its id, as long as no record stored before
    carries that id and the read goes through. *)
Theorem getRecording_after_saveRecording f w r w1 :
  Storage.saveRecording f w = (Returned r, w1) →
  (∀ r', r' ∈ stored w → id r' ≠ id r) →
  next_fault (storage_faults w1) = false →
  ∃ w2, Storage.getRecording (id r) w1 = (Returned (Some r), w2).
Proof.
  intros Hsave Hnew Hread.
  apply saveRecording_Returned in Hsave as (_ & Hitem & _).
  rewrite getRecording_eq. eexists. f_equal. f_equal.
  unfold listed. rewrite Hread.
  assert (stored w1 = r :: stored w) as -> by (unfold stored at 1; by rewrite Hitem).
  apply find_by_id_unique; [|done|].
  - apply elem_of_Array_sort. by left.
  - intros r' [->|Hr']%elem_of_Array_sort%elem_of_cons Hid; [done|].
    by destruct (Hnew r' Hr').
Qed.

Lemma getRecording_after_saveRecording_witness :
  let w := quiet_world [1700000000000; 1700000000001] in
  let w1 := snd (Storage.saveRecording standup w) in
  ∃ w2, Storage.getRecording "1700000000000" w1 =
          (Returned (Some (mkSaved "1700000000000" 1700000000001 "Standup"
                                   "file://a.m4a" 65000 None None)), w2).
Proof.
  intros w w1.
  apply (getRecording_after_saveRecording standup w
           (mkSaved "1700000000000" 1700000000001 "Standup" "file://a.m4a"
                    65000 None None) w1).
  - vm_compute. reflexivity.
  - intros r' Hr'. vm_compute in Hr'. by apply elem_of_nil in Hr'.
  - reflexivity.
Defined.

(** A call of [deleteRecording] that has resolved has written the listed
    records without those of the id, and has removed at most the file of the
    record it found. *)
Lemma deleteRecording_Returned x w w' :
  Storage.deleteRecording x w = (Returned tt, w') →
  item w' = Some (JsonArray (filter (λ r, id r ≠ x) (listed w))) ∧
  (files w' = files w ∨
   ∃ r, Storage.find_by_id x (listed w) = Some r ∧
        files w' = delete (audioUri r) (files w)).
Proof.
  rewrite deleteRecording_eq. cbv zeta. unfold AsyncStorage.setItem.
  set (w1 := with_storage_faults _ w).
  destruct (Storage.find_by_id x (listed w)) as [r|].
  - unfold FileSystem.deleteAsync.
    destruct (next_fault (file_faults w1)); simpl.
    + destruct (next_fault (tail (storage_faults w))); [done|].
      intros [= <-]. split; [done|by left].
    + destruct (files w !! audioUri r) eqn:Hfile; simpl;
        (destruct (next_fault (tail (storage_faults w))); [done|]);
        intros [= <-]; (split; [done|]); [right; by exists r|by left].
  - simpl. destruct (next_fault (tail (storage_faults w))); [done|].
    intros [= <-]. split; [done|by left].
Qed.

(** X5.  Once [deleteRecording(id)] has resolved, [getRecording(id)] resolves
    to [null], whatever the collection held before (several records of that
    id included) and whether or not the next read goes through. *)
Theorem getRecording_after_deleteRecording x w w1 :
  Storage.deleteRecording x w = (Returned tt, w1) →
  ∃ w2, Storage.getRecording x w1 = (Returned None, w2).
Proof.
  intros (Hitem & _)%deleteRecording_Returned.
  rewrite getRecording_eq. eexists. f_equal. f_equal.
  destruct (Storage.find_by_id x (listed w1)) as [r|] eqn:Hfind; [|done].
  apply find_by_id_Some in Hfind as [Hr Hid].
  apply elem_of_listed in Hr. unfold stored in Hr. rewrite Hitem in Hr.
  apply list_elem_of_filter in Hr as [? _]. done.
Qed.

Lemma getRecording_after_deleteRecording_witness :
  let w1 := snd (Storage.deleteRecording "1700000000000" one_recording_world) in
  ∃ w2, Storage.getRecording "1700000000000" w1 = (Returned None, w2).
Proof.
  intros w1.
  apply (getRecording_after_deleteRecording "1700000000000" one_recording_world w1).
  vm_compute. reflexivity.
Defined.

(** X6.  A save loses nothing: after [saveRecording] has returned a record,
    the list of [getRecordings] holds that record and every record stored
    before, and nothing else. *)
Theorem saveRecording_keeps_records f w r w1 :
  Storage.saveRecording f w = (Returned r, w1) →
  next_fault (storage_faults w1) = false →
  ∃ l w2, Storage.getRecordings w1 = (Returned l, w2) ∧
          l ≡ₚ r :: stored w.
Proof.
  intros (_ & Hitem & _)%saveRecording_Returned Hread.
  rewrite getRecordings_eq, Hread. eexists _, _. split; [done|].
  rewrite Array_sort_Permutation. unfold stored at 1. by rewrite Hitem.
Qed.

Lemma saveRecording_keeps_records_witness :
  let w := with_clock [1700000000500; 1700000000501] one_recording_world in
  let r := mkSaved "1700000000500" 1700000000501 "Retro" "file://b.m4a" 1000
                   None None in
  ∃ l w2, Storage.getRecordings (snd (Storage.saveRecording retro w))
            = (Returned l, w2) ∧
          l ≡ₚ [r; standup_saved].
Proof.
  intros w r.
  apply (saveRecording_keeps_records retro w r (snd (Storage.saveRecording retro w))).
  - vm_compute. reflexivity.
  - reflexivity.
Defined.

Lemma filter_all {A} (P : A → Prop) `{∀ x, Decision (P x)} (l : list A) :
  Forall P l → filter P l = l.
Proof.
  induction 1 as [|x l Hx _ IH]; [done|]. rewrite filter_cons_True by done.
  by rewrite IH.
Qed.

(** X7.  Deleting an id that no stored record carries keeps every record and
    touches no file: the collection is written back in the order of the
    listing. *)
Theorem deleteRecording_absent_id x w l :
  item w = Some (JsonArray l) →
  (∀ r, r ∈ l → id r ≠ x) →
  no_fault 2 (storage_faults w) = true →
  ∃ w', Storage.deleteRecording x w = (Returned tt, w') ∧
        stored w' = Storage.Array_sort Storage.byCreatedAtDesc l ∧
        files w' = files w ∧
        file_faults w' = file_faults w.
Proof.
  intros Hitem Habsent Hfaults.
  rewrite deleteRecording_eq. cbv zeta. unfold listed, AsyncStorage.setItem.
  assert (stored w = l) as -> by (unfold stored; by rewrite Hitem).
  destruct w as [it fl sn ck sf ff af nw ac u lc]; simpl in *.
  destruct sf as [|[] [|[] sf]]; try discriminate Hfaults; simpl.
  all: destruct (Storage.find_by_id x _) as [r|] eqn:Hfind;
    [apply find_by_id_Some in Hfind as [Hr%elem_of_Array_sort Hid];
     by destruct (Habsent r Hr)|].
  all: eexists; split; [done|]; simpl; split; [|done].
  all: unfold stored; simpl; apply filter_all, Forall_forall.
  all: intros r Hr%elem_of_Array_sort; by apply Habsent.
Qed.

Lemma deleteRecording_absent_id_witness :
  ∃ w', Storage.deleteRecording "42" one_recording_world = (Returned tt, w') ∧
        stored w' = [standup_saved] ∧
        files w' = {[ "file://a.m4a" := Some 65000 ]} ∧
        file_faults w' = [].
Proof.
  apply (deleteRecording_absent_id "42" one_recording_world [standup_saved]).
  - reflexivity.
  - intros r Hr%list_elem_of_singleton. by subst r.
  - reflexivity.
Defined.

(** X8.  [deleteRecording(id)] drops every record of that id from the
    collection but deletes one file at most: of any two files that were
    there before the call, one is still there after it.  So when two stored
    records share the id and keep their audio in different files, both
    records go and one of the files stays. *)
Theorem deleteRecording_deletes_one_file x w w' u1 u2 :
  Storage.deleteRecording x w = (Returned tt, w') →
  u1 ≠ u2 →
  is_Some (files w !! u1) →
  is_Some (files w !! u2) →
  (∀ r, r ∈ stored w' → id r ≠ x) ∧
  (is_Some (files w' !! u1) ∨ is_Some (files w' !! u2)).
Proof.
  intros (Hitem & Hfiles)%deleteRecording_Returned Huri Hf1 Hf2.
  unfold stored. rewrite Hitem. split.
  - by intros r [? _]%list_elem_of_filter.
  - destruct Hfiles as [->|(r & _ & ->)]; [by left|].
    destruct (decide (audioUri r = u1)) as [Heq|Hne].
    + right. rewrite lookup_delete_ne by congruence. done.
    + left. by rewrite lookup_delete_ne.
Qed.

Lemma deleteRecording_deletes_one_file_witness :
  let w' := snd (Storage.deleteRecording "1700000000000" twins_world) in
  (∀ r, r ∈ stored w' → id r ≠ "1700000000000") ∧
  (is_Some (files w' !! "file://a.m4a") ∨ is_Some (files w' !! "file://b.m4a")).
Proof.
  intros w'.
  apply (deleteRecording_deletes_one_file "1700000000000" twins_world w').
  - vm_compute. reflexivity.
  - done.
  - vm_compute. eauto.
  - vm_compute. eauto.
Defined.

(** X9.  [saveRecording] reads the collection back after it has written it.
    When that last read rejects, the call rejects although the record is
    stored: the caller is told of a failure, and the collection holds the new
    record in front of the earlier ones. *)
Theorem saveRecording_rejects_after_write f w :
  item w ≠ Some Malformed → item w ≠ Some JsonOther →
  no_fault 2 (storage_faults w) = true →
  next_fault (tail (tail (storage_faults w))) = true →
  ∃ r w', Storage.saveRecording f w = (Thrown StorageError, w') ∧
          stored w' = r :: stored w ∧
          title r = f_title f ∧ audioUri r = f_audioUri f.
Proof.
  destruct w as [it fl sn ck sf ff af nw ac u lc]; simpl.
  intros Hm Ho Hfaults Hverify.
  unfold Storage.saveRecording, Date_now, AsyncStorage.getItem,
    AsyncStorage.setItem, stored.
  unfold_monad.
  destruct sf as [|[] [|[] [|[] sf]]]; try discriminate Hfaults;
    try discriminate Hverify.
  destruct ck as [|t1 [|t2 ck]]; simpl;
    destruct it as [[]|]; simpl; try done; by eexists _, _.
Qed.

Lemma saveRecording_rejects_after_write_witness :
  ∃ r w', Storage.saveRecording retro
            (with_storage_faults [false; false; true] one_recording_world)
            = (Thrown StorageError, w') ∧
          stored w' = [r; standup_saved] ∧
          title r = "Retro" ∧ audioUri r = "file://b.m4a".
Proof.
  apply (saveRecording_rejects_after_write retro
           (with_storage_faults [false; false; true] one_recording_world));
    done.
Defined.

(** ** screens/HistoryScreen.tsx *)

(** [loadRecordings] never rejects: it shows what [getRecordings] answers. *)
Lemma loadRecordings_eq w st :
  HistoryScreen.loadRecordings (w, st) =
    (Returned tt,
     (with_storage_faults (tail (storage_faults w)) w,
      HistoryScreen.mkState (listed w) false)).
Proof.
  unfold HistoryScreen.loadRecordings. unfold_monad.
  rewrite getRecordings_eq. by fold (listed w).
Qed.

(** X10.  A confirmed deletion from the history never rejects.  When
    [deleteRecording] resolves, the list is loaded again: no record of the
    deleted id is shown, and the user is told of the success.  When it
    rejects, the user is told of the failure and the list shown stays as it
    was. *)
Theorem handleDeleteRecording_outcome recording w st :
  ∃ w' st',
    HistoryScreen.handleDeleteRecording recording HistoryScreen.Delete (w, st)
      = (Returned tt, (w', st')) ∧
    match Storage.deleteRecording (id recording) w with
    | (Returned _, _) =>
        (∀ r, r ∈ HistoryScreen.recordings st' → id r ≠ id recording) ∧
        HistoryScreen.isLoading st' = false ∧
        ui w' = ui w ++ [Alert "Success" "Recording deleted successfully"]
    | (Thrown _, _) =>
        st' = st ∧
        ui w' = ui w ++ [Alert "Error" "Failed to delete recording"]
    end.
Proof.
  unfold HistoryScreen.handleDeleteRecording. unfold_monad.
  destruct (Storage.deleteRecording (id recording) w) as [[[]|e] w1] eqn:Hdel.
  - rewrite loadRecordings_eq. unfold emit. unfold_monad. simpl.
    eexists _, _. split; [done|]. simpl.
    apply deleteRecording_Returned in Hdel as Hitem.
    destruct Hitem as [Hitem _].
    assert (ui w1 = ui w) as ->.
    { revert Hdel. rewrite deleteRecording_eq. cbv zeta.
      unfold AsyncStorage.setItem, FileSystem.deleteAsync.
      destruct (Storage.find_by_id _ _); simpl;
        repeat case_match; simpl; by intros [= <-]. }
    split_and!; try done.
    intros r Hr%elem_of_listed. unfold stored in Hr. rewrite Hitem in Hr.
    by apply list_elem_of_filter in Hr as [? _].
  - unfold emit. unfold_monad. simpl. eexists _, _. split; [done|].
    split; [done|]. simpl. f_equal.
    revert Hdel. rewrite deleteRecording_eq. cbv zeta.
    unfold AsyncStorage.setItem, FileSystem.deleteAsync.
    destruct (Storage.find_by_id _ _); simpl;
      repeat case_match; simpl; by intros [= _ <-].
Qed.

(** X11.  [handlePlayRecording] always opens the review screen, with the
    locator stored in the record: whether the audio file is there or not, and
    whether or not the file system answers.  It touches no file, and the
    alert of its [catch] branch is never shown. *)
Theorem handlePlayRecording_always_opens recording w st :
  ∃ w',
    HistoryScreen.handlePlayRecording recording (w, st) = (Returned tt, (w', st)) ∧
    ui w' = ui w ++
      [Navigate "Review"
         (HistoryScreen.review_params (audioUri recording) recording)] ∧
    files w' = files w ∧ item w' = item w.
Proof.
  unfold HistoryScreen.handlePlayRecording, Storage.ensureAudioFileExists,
    FileSystem.getInfoAsync, emit.
  unfold_monad.
  destruct (next_fault (file_faults w)); simpl.
  - by eexists.
  - destruct (bool_decide _); by eexists.
Qed.

(** ** screens/ReviewScreen.tsx: saving and extracting *)

(** [trim] takes the Unicode white space off both ends, and nothing else:
    not the letters outside ASCII, nor U+0085 and U+200B, which are no white
    space for ECMAScript. *)
Lemma trim_white_space :
  trim blank_title = "" ∧
  trim padded_title = "Caf" +:+ of_bytes [0xC3; 0xA9]%N ∧
  trim (of_bytes [0xC2; 0x85; 0xE2; 0x80; 0x8B]%N)
    = of_bytes [0xC2; 0x85; 0xE2; 0x80; 0x8B]%N.
Proof. split_and!; vm_compute; reflexivity. Qed.

(** What [title_or_default] leaves alone. *)
Lemma title_or_default_frame title w :
  ∃ t w', ReviewScreen.title_or_default title w = (Returned t, w') ∧
          item w' = item w ∧ storage_faults w' = storage_faults w ∧
          ui w' = ui w ∧
          (trim title ≠ "" → t = trim title ∧ w' = w).
Proof.
  unfold ReviewScreen.title_or_default, Date_now. unfold_monad.
  case_decide; [|by eexists _, _].
  destruct (clock w); by eexists _, _.
Qed.

(** What a call of [saveRecording] leaves in the store, whether it returns
    or throws. *)
Lemma saveRecording_stored f w :
  let w' := snd (Storage.saveRecording f w) in
  item w' = item w ∨
  ∃ r, stored w' = r :: stored w ∧ title r = f_title f ∧
       audioUri r = f_audioUri f ∧ audioDuration r = f_audioDuration f.
Proof.
  unfold Storage.saveRecording, Date_now, AsyncStorage.getItem,
    AsyncStorage.setItem, stored.
  unfold_monad.
  destruct w as [it fl sn ck sf ff af nw ac u lc]; simpl.
  destruct ck as [|t1 [|t2 ck]]; simpl;
  destruct sf as [|[] [|[] [|[] sf]]]; simpl;
  destruct it as [[]|]; simpl; eauto 10.
Qed.

(** X13.  [handleSaveRecording] never rejects, and whatever it stores has a
    title: with a title that is blank once trimmed it stores nothing and
    reads neither the clock nor the store; otherwise the collection is either
    left as it was, or gets one new record in front whose title is the
    trimmed text (never the dated default of [handleSave]) and whose audio is
    that of the screen. *)
Theorem handleSaveRecording_stores_a_title params w st :
  ∃ w' st',
    ReviewScreen.handleSaveRecording params (w, st) = (Returned tt, (w', st')) ∧
    (item w' = item w ∨
     ∃ r, stored w' = r :: stored w ∧
          title r = trim (ReviewScreen.recordingTitle st) ∧ title r ≠ "" ∧
          audioUri r = p_audioUri params ∧
          audioDuration r = p_audioDuration params) ∧
    (trim (ReviewScreen.recordingTitle st) = "" →
     item w' = item w ∧ clock w' = clock w ∧
     storage_faults w' = storage_faults w ∧ st' = st).
Proof.
  unfold ReviewScreen.handleSaveRecording. unfold_monad.
  case_bool_decide as Hblank.
  { unfold emit. unfold_monad. eexists _, _. split; [done|]. simpl. by split; [left|]. }
  unfold ReviewScreen.handleSave. unfold_monad.
  destruct (_ || _).
  { unfold emit. unfold_monad. eexists _, _. split; [done|]. simpl. by split; [left|]. }
  destruct (title_or_default_frame (ReviewScreen.recordingTitle st) w)
    as (t & w1 & Ht & _ & _ & _ & Hsame).
  destruct (Hsame Hblank) as [-> ->]. clear Hsame.
  cbn [ReviewScreen.setIsLoading]. rewrite Ht. cbv beta iota zeta.
  match goal with |- context [Storage.saveRecording ?f w] =>
    pose proof (saveRecording_stored f w) as Hstored;
    destruct (Storage.saveRecording f w) as [[r|e] w2]
  end; simpl in Hstored; unfold emit; unfold_monad; cbv beta iota zeta;
    (eexists _, _; split; [reflexivity|]; split; [|done]);
    (destruct Hstored as [Hi|(r' & Hs & Ht' & Hu & Hd)];
      [by left|right; exists r'; unfold stored in *; simpl in *;
       rewrite Ht'; done]).
Qed.

(** X14.  [extractActionablePoints] never rejects and always tells the user
    how it went, with one alert.  Without a transcription text it sends no
    request and changes nothing.  Otherwise it ends with the loading flag
    down, and the list of points changes in one case only: the service has
    answered with an ok body that carries points, which become the list.
    After every other answer (no connection, an HTTP error, a body that is
    not JSON or not ok) the points and the open tab are the ones from
    before. *)
Theorem extractActionablePoints_outcome w st :
  ∃ w' st' heading message,
    ReviewScreen.extractActionablePoints (w, st) = (Returned tt, (w', st')) ∧
    ui w' = ui w ++ [Alert heading message] ∧
    (ReviewScreen.truthy (ReviewScreen.currentServerResult st ≫= full_text) = false →
     network w' = network w ∧ st' = st) ∧
    (ReviewScreen.truthy (ReviewScreen.currentServerResult st ≫= full_text) = true →
     ReviewScreen.isLoadingActionable st' = false) ∧
    ((ReviewScreen.actionablePoints st' = ReviewScreen.actionablePoints st ∧
      ReviewScreen.activeTab st' = ReviewScreen.activeTab st ∧
      heading ≠ "Success") ∨
     (∃ status text points error rest,
        network w = extracted status text points error :: rest ∧
        ReviewScreen.actionablePoints st' = points ∧
        heading = "Success")).
Proof.
  unfold ReviewScreen.extractActionablePoints. unfold_monad.
  destruct (ReviewScreen.truthy _) eqn:Htext; cbn [negb]; cbv beta iota zeta.
  2:{ unfold emit. unfold_monad. eexists _, _, _, _. split; [done|].
      simpl. split_and!; try done. by left. }
  unfold fetch.
  destruct (network w) as [|[|ok status text [[[] [points|] error]|]] rest];
    cbv beta iota zeta; try destruct ok; cbn [negb b_ok b_actionablePoints];
    unfold emit; unfold_monad; cbv beta iota zeta;
    eexists _, _, _, _; (split; [reflexivity|]); simpl;
    (split; [done|]); (split; [done|]); (split; [done|]).
  all: try (left; by split_and!).
  right. by eexists _, _, _, _, _.
Qed.

(** ** screens/ReviewScreen.tsx: the player *)

Lemma pauseAsync_loaded w h s uri :
  sounds w !! h = Some s → loaded s = Some uri →
  next_fault (audio_faults w) = false →
  Audio.pauseAsync h w =
    (Returned tt,
     with_sounds (<[h := mkSound (loaded s) false (positionMillis s)
                          (durationMillis s) (didJustFinish s) (volume s)
                          (isMuted s)]>
                    (sounds w))
       (after_call (CallPause h) w)).
Proof.
  intros Hs Hloaded Hok.
  unfold Audio.pauseAsync, Audio.call, Audio.the_loaded, Audio.store.
  unfold_monad. rewrite Hok. simpl. rewrite Hs.
  destruct (loaded s) eqn:E; [|discriminate]. simpl. by rewrite ?E.
Qed.

(** X15.  Pause and resume: on a track that is playing away from its end,
    [togglePlayPause] pauses without moving the position, and a second
    [togglePlayPause] resumes from that same position, with no seek. *)
Theorem togglePlayPause_pause_and_resume w st h s uri :
  ReviewScreen.sound st = Some h →
  sounds w !! h = Some s →
  loaded s = Some uri →
  isPlaying s = true →
  ¬ finished s →
  no_fault 6 (audio_faults w) = true →
  ∃ w1 st1 s1 w2 st2 s2,
    ReviewScreen.togglePlayPause (w, st) = (Returned tt, (w1, st1)) ∧
    sounds w1 !! h = Some s1 ∧
    isPlaying s1 = false ∧ ReviewScreen.isPlaying st1 = false ∧
    positionMillis s1 = positionMillis s ∧
    ReviewScreen.togglePlayPause (w1, st1) = (Returned tt, (w2, st2)) ∧
    sounds w2 !! h = Some s2 ∧
    isPlaying s2 = true ∧ ReviewScreen.isPlaying st2 = true ∧
    positionMillis s2 = positionMillis s ∧
    ReviewScreen.audioProgress st2 = ReviewScreen.audioProgress st ∧
    audio_calls w2 = audio_calls w ++
      [CallGetStatus h; CallPause h;
       CallGetStatus h; CallSetVolume h 100; CallSetIsMuted h false; CallPlay h].
Proof.
  intros Hsound Hs Hloaded Hplaying Hfin Hfaults.
  assert (∀ s', didJustFinish s' = didJustFinish s →
                positionMillis s' = positionMillis s →
                durationMillis s' = durationMillis s → ¬ finished s') as Hfin'.
  { intros s' Hd Hp Hdur. unfold finished. rewrite Hd, Hp, Hdur. exact Hfin. }
  destruct w as [it fl sn ck sf ff af nw ac u lc]; simpl in Hs, Hfaults.
  destruct af as [|[] [|[] [|[] [|[] [|[] [|[] af]]]]]];
    try discriminate Hfaults.
  all: unfold ReviewScreen.togglePlayPause at 1; unfold_monad; rewrite Hsound;
    step getStatusAsync_loaded; cbn [Audio.status_isPlaying]; rewrite Hplaying;
    step pauseAsync_loaded.
  all: eexists _, _, _. 
  all: eexists _, _, _.
  all: split; [reflexivity|].
  all: cbn [sounds with_sounds after_call with_audio_calls with_audio_faults].
  all: rewrite lookup_insert_eq.
  all: split; [reflexivity|].
  all: cbn [isPlaying positionMillis ReviewScreen.isPlaying ReviewScreen.setIsPlaying].
  all: split; [reflexivity|]; split; [reflexivity|]; split; [reflexivity|].
  all: unfold ReviewScreen.togglePlayPause; unfold_monad;
    cbn [ReviewScreen.sound ReviewScreen.setIsPlaying]; rewrite Hsound.
  all: step getStatusAsync_loaded.
  all: rewrite replay_condition; cbn [Audio.status_isPlaying isPlaying].
  all: rewrite bool_decide_eq_false_2 by (by apply Hfin').
  all: step setVolumeAsync_loaded; step setIsMutedAsync_loaded;
    step playAsync_loaded.
  all: split; [reflexivity|].
  all: simpl; rewrite ?lookup_insert_eq, <-?(assoc_L (++)); simpl.
  all: split_and!; reflexivity.
Qed.

Lemma togglePlayPause_pause_and_resume_witness :
  ∃ w1 st1 s1 w2 st2 s2,
    ReviewScreen.togglePlayPause (playing_world, playing_state)
      = (Returned tt, (w1, st1)) ∧
    sounds w1 !! 0%nat = Some s1 ∧
    isPlaying s1 = false ∧ ReviewScreen.isPlaying st1 = false ∧
    positionMillis s1 = 4000 ∧
    ReviewScreen.togglePlayPause (w1, st1) = (Returned tt, (w2, st2)) ∧
    sounds w2 !! 0%nat = Some s2 ∧
    isPlaying s2 = true ∧ ReviewScreen.isPlaying st2 = true ∧
    positionMillis s2 = 4000 ∧
    ReviewScreen.audioProgress st2 = 3900 ∧
    audio_calls w2 =
      [CallGetStatus 0; CallPause 0;
       CallGetStatus 0; CallSetVolume 0 100; CallSetIsMuted 0 false; CallPlay 0].
Proof.
  apply (togglePlayPause_pause_and_resume playing_world playing_state 0%nat
           playing_track "file://a.m4a"); try reflexivity.
  unfold finished. vm_compute. intros [?|?]; done.
Defined.

(** X16.  [seekTo] keeps the play state.  On a loaded track, with the
    player's calls going through, it asks the player for the position, shows
    the requested position as the progress, and calls [playAsync] again
    exactly when the track was playing: a paused track stays paused. *)
Theorem seekTo_keeps_play_state position w st h s uri :
  ReviewScreen.sound st = Some h →
  sounds w !! h = Some s →
  loaded s = Some uri →
  no_fault 3 (audio_faults w) = true →
  ∃ w' st' s',
    ReviewScreen.seekTo position (w, st) = (Returned tt, (w', st')) ∧
    sounds w' !! h = Some s' ∧
    isPlaying s' = isPlaying s ∧
    positionMillis s' = Audio.clamp_position s position ∧
    ReviewScreen.audioProgress st' = position ∧
    audio_calls w' = audio_calls w ++
      CallGetStatus h :: CallSetPosition h position ::
      (if isPlaying s then [CallPlay h] else []).
Proof.
  intros Hsound Hs Hloaded Hfaults.
  destruct w as [it fl sn ck sf ff af nw ac u lc]; simpl in Hs, Hfaults.
  destruct af as [|[] [|[] [|[] af]]]; try discriminate Hfaults.
  all: unfold ReviewScreen.seekTo; unfold_monad; rewrite Hsound;
    step getStatusAsync_loaded; step setPositionAsync_loaded;
    cbn [Audio.status_isPlaying]; destruct (isPlaying s) eqn:Hplaying;
    [step playAsync_loaded|].
  all: eexists _, _, _; (split; [reflexivity|]); simpl;
    rewrite ?lookup_insert_eq, <-?(assoc_L (++)); simpl.
  all: split_and!; try reflexivity; try done.
Qed.

Lemma seekTo_keeps_play_state_witness :
  ∃ w' st' s',
    ReviewScreen.seekTo 2500 (played_world,
      ReviewScreen.setSound (Some 0%nat) (ReviewScreen.initial fresh_params))
      = (Returned tt, (w', st')) ∧
    sounds w' !! 0%nat = Some s' ∧
    isPlaying s' = false ∧
    positionMillis s' = 2500 ∧
    ReviewScreen.audioProgress st' = 2500 ∧
    audio_calls w' = [CallGetStatus 0; CallSetPosition 0 2500].
Proof.
  exact (seekTo_keeps_play_state 2500 played_world
           (ReviewScreen.setSound (Some 0%nat) (ReviewScreen.initial fresh_params))
           0%nat played_track "file://a.m4a" eq_refl eq_refl eq_refl eq_refl).
Defined.

(** X17.  [seekTo] never rejects: a rejection of the player is caught, and
    then the stored collection and the files are as before. *)
Theorem seekTo_never_rejects position w st :
  ∃ w' st',
    ReviewScreen.seekTo position (w, st) = (Returned tt, (w', st')) ∧
    item w' = item w ∧ files w' = files w ∧ ui w' = ui w.
Proof.
  unfold ReviewScreen.seekTo. unfold_monad.
  destruct (ReviewScreen.sound st) as [h|]; [|by eexists _, _].
  unfold Audio.getStatusAsync, Audio.setPositionAsync, Audio.playAsync,
    Audio.call, Audio.the_loaded, Audio.store.
  unfold_monad.
  destruct w as [it fl sn ck sf ff af nw ac u lc]; simpl.
  destruct af as [|[] [|[] [|[] af]]]; simpl;
    repeat (case_match; simpl; simplify_eq/=); by eexists _, _.
Qed.

(** X18.  [cleanupAudio] never rejects, and it unloads the sound unless the
    player rejects twice: when at most one of the next four answers of the
    player is a rejection, the sound of the screen ends unloaded. *)
Theorem cleanupAudio_unloads w st h :
  ReviewScreen.sound st = Some h →
  ∃ w',
    ReviewScreen.cleanupAudio (w, st) = (Returned tt, (w', st)) ∧
    ((rejections 4 (audio_faults w) ≤ 1)%nat →
     sounds w' !! h = Some Audio.unloaded_sound).
Proof.
  intros Hsound. unfold ReviewScreen.cleanupAudio. unfold_monad. rewrite Hsound.
  unfold Audio.getStatusAsync, Audio.pauseAsync, Audio.unloadAsync,
    Audio.call, Audio.the_loaded, Audio.store, rejections.
  unfold_monad.
  destruct w as [it fl sn ck sf ff af nw ac u lc]; simpl.
  destruct af as [|[] [|[] [|[] [|[] af]]]]; simpl;
    repeat (case_match; simpl; simplify_eq/=);
    (eexists; split; [reflexivity|]); simpl;
    rewrite ?lookup_insert_eq; try done; try (intros; lia).
Qed.

Lemma cleanupAudio_unloads_witness :
  ∃ w',
    ReviewScreen.cleanupAudio (with_audio_faults [true] playing_world, playing_state)
      = (Returned tt, (w', playing_state)) ∧
    ((rejections 4 [true] ≤ 1)%nat →
     sounds w' !! 0%nat = Some Audio.unloaded_sound).
Proof.
  exact (cleanupAudio_unloads (with_audio_faults [true] playing_world)
           playing_state 0%nat eq_refl).
Defined.

(** ** app/(tabs)/index.tsx: the end of a capture *)

(** The copy to permanent storage when the file system answers: the capture
    is moved. *)
Lemma copy_to_permanent_moves tempUri content w :
  files w !! tempUri = Some content →
  no_fault 2 (file_faults w) = true →
  let permanentUri := RecordScreen.permanent_name (next_reading w) in
  RecordScreen.copy_to_permanent tempUri w =
    (Returned permanentUri,
     with_files (delete tempUri (<[permanentUri := content]> (files w)))
       (with_file_faults (tail (tail (file_faults w)))
          (with_clock (tail (clock w)) w))).
Proof.
  intros Hfile Hfaults.
  unfold RecordScreen.copy_to_permanent, Date_now, FileSystem.copyAsync,
    FileSystem.deleteAsync, next_reading.
  unfold_monad. destruct w as [it fl sn ck sf ff af nw ac u lc]; simpl in *.
  destruct ff as [|[] [|[] ff]]; try discriminate Hfaults;
    destruct ck as [|t ck]; simpl; rewrite Hfile; simpl.
  all: match goal with |- context [<[?p := _]> _ !! ?t] =>
         destruct (decide (p = t)) as [->|Hne];
         [rewrite lookup_insert_eq|rewrite lookup_insert_ne, Hfile by done]
       end; done.
Qed.

(** The copy when the removal of the temporary file rejects: the copy is
    there, and the temporary locator is the one to go on with. *)
Lemma copy_to_permanent_cleanup_rejected tempUri content w :
  files w !! tempUri = Some content →
  next_fault (file_faults w) = false →
  next_fault (tail (file_faults w)) = true →
  RecordScreen.copy_to_permanent tempUri w =
    (Returned tempUri,
     with_files (<[RecordScreen.permanent_name (next_reading w) := content]>
                   (files w))
       (with_file_faults (tail (tail (file_faults w)))
          (with_clock (tail (clock w)) w))).
Proof.
  intros Hfile Hcopy Hdelete.
  unfold RecordScreen.copy_to_permanent, Date_now, FileSystem.copyAsync,
    FileSystem.deleteAsync, next_reading.
  unfold_monad. destruct w as [it fl sn ck sf ff af nw ac u lc]; simpl in *.
  destruct ff as [|[] [|[] ff]]; try discriminate Hcopy; try discriminate Hdelete.
  destruct ck as [|t ck]; simpl; rewrite Hfile; done.
Qed.

(** The probe of the duration inside [stop], on a file that is there: a new
    sound is loaded from the file, asked for its status and unloaded. *)
Lemma probe_duration uri duration w :
  files w !! uri = Some duration →
  no_fault 3 (audio_faults w) = true →
  ∃ h wa wb s wc wd,
    Audio.Sound_new w = (Returned h, wa) ∧
    Audio.loadAsync h uri wa = (Returned tt, wb) ∧
    Audio.getStatusAsync h wb = (Returned (Audio.StatusLoaded s), wc) ∧
    durationMillis s = duration ∧
    Audio.unloadAsync h wc = (Returned tt, wd) ∧
    files wd = files w ∧ ui wd = ui w ∧ item wd = item w.
Proof.
  intros Hfile Haudio.
  destruct w as [it fl sn ck sf ff af nw ac u lc]; simpl in *.
  eexists _, _, _, _, _, _.
  split; [reflexivity|].
  split.
  { unfold Audio.loadAsync, Audio.call, Audio.store. unfold_monad. simpl.
    assert (next_fault af = false) as -> by (by destruct af as [|[] ?]).
    simpl. rewrite Hfile. reflexivity. }
  split.
  { unfold Audio.getStatusAsync, Audio.call. unfold_monad. simpl.
    assert (next_fault (tail af) = false) as ->
      by (by destruct af as [|[] [|[] ?]]).
    simpl. rewrite lookup_insert_eq. reflexivity. }
  split; [reflexivity|].
  split.
  { unfold Audio.unloadAsync, Audio.call, Audio.store. unfold_monad. simpl.
    assert (next_fault (tail (tail af)) = false) as ->
      by (by destruct af as [|[] [|[] [|[] ?]]]).
    simpl. reflexivity. }
  done.
Qed.

(** X19.  The ordinary end of a capture: with the file system and the
    recorder answering, [stop] moves the capture file to permanent storage
    under a name made of the clock reading, removes the temporary file, and
    opens the review screen on the permanent locator with the duration of the
    file. *)
Theorem stop_moves_capture_to_permanent_storage w st rec duration :
  RecordScreen.recording st = Some rec →
  files w !! Audio.getURI rec = Some duration →
  no_fault 2 (file_faults w) = true →
  no_fault 4 (audio_faults w) = true →
  let permanentUri := RecordScreen.permanent_name (next_reading w) in
  permanentUri ≠ Audio.getURI rec →
  ∃ w' st',
    RecordScreen.stop (w, st) = (Returned tt, (w', st')) ∧
    files w' !! permanentUri = Some duration ∧
    files w' !! Audio.getURI rec = None ∧
    ui w' = ui w ++ [Navigate "Review"
                       (mkParams permanentUri (or_zero duration) None None)] ∧
    RecordScreen.audioUri st' = Some permanentUri ∧
    RecordScreen.audioDuration st' = or_zero duration ∧
    RecordScreen.recording st' = None ∧
    RecordScreen.isLoading st' = false.
Proof.
  intros Hrec Hfile Hff Haudio permanentUri Hne.
  unfold RecordScreen.stop. unfold_monad. rewrite Hrec. cbv beta iota zeta.
  unfold Audio.stopAndUnloadAsync.
  assert (next_fault (audio_faults w) = false) as ->
    by (destruct (audio_faults w) as [|[] ?]; done).
  cbv beta iota zeta. set (w0 := with_audio_faults _ w).
  rewrite (copy_to_permanent_moves (Audio.getURI rec) duration w0) by done.
  change (next_reading w0) with (next_reading w). fold permanentUri.
  cbv beta iota zeta.
  set (w1 := with_files _ _).
  assert (files w1 !! permanentUri = Some duration) as Hperm.
  { subst w1. simpl. rewrite lookup_delete_ne by done.
    by rewrite lookup_insert_eq. }
  assert (files w1 !! Audio.getURI rec = None) as Htemp.
  { subst w1. simpl. by rewrite lookup_delete_eq. }
  assert (ui w1 = ui w) as Hui by done.
  assert (no_fault 3 (audio_faults w1) = true) as Haudio1.
  { subst w1. simpl. destruct (audio_faults w) as [|[] [|[] [|[] [|[] ?]]]]; done. }
  clearbody w1.
  match goal with |- context [RecordScreen.setRecordingElapsedMs 0 ?s] =>
    set (st1 := RecordScreen.setRecordingElapsedMs 0 s) end.
  destruct (probe_duration permanentUri duration w1 Hperm Haudio1)
    as (h & wa & wb & s & wc & wd & -> & -> & -> & Hdur & -> & Hf2 & Hu2 & _).
  cbv beta iota zeta. cbn [Audio.status_durationMillis]. rewrite Hdur.
  unfold emit. unfold_monad. cbv beta iota zeta.
  eexists _, _. split; [reflexivity|]. simpl.
  rewrite Hf2, Hu2, Hui. done.
Qed.

Lemma stop_moves_capture_to_permanent_storage_witness :
  let permanentUri := "file:///data/documents/recording_1700000003000.m4a" in
  ∃ w' st',
    RecordScreen.stop (capturing_world [], recording_state)
      = (Returned tt, (w', st')) ∧
    files w' !! permanentUri = Some (Some 3000) ∧
    files w' !! "file:///cache/rec.m4a" = None ∧
    ui w' = [Navigate "Review" (mkParams permanentUri 3000 None None)] ∧
    RecordScreen.audioUri st' = Some permanentUri ∧
    RecordScreen.audioDuration st' = 3000 ∧
    RecordScreen.recording st' = None ∧
    RecordScreen.isLoading st' = false.
Proof.
  intros permanentUri.
  apply (stop_moves_capture_to_permanent_storage (capturing_world [])
           recording_state capture (Some 3000)); try reflexivity.
  vm_compute. done.
Defined.

(** X20.  When the capture has been copied but the removal of the temporary
    file rejects, [stop] treats the copy as failed: the review screen is
    opened on the temporary locator, and both files are left on the device,
    the permanent copy without any reference to it. *)
Theorem stop_leaves_copy_behind w st rec duration :
  RecordScreen.recording st = Some rec →
  files w !! Audio.getURI rec = Some duration →
  next_fault (file_faults w) = false →
  next_fault (tail (file_faults w)) = true →
  no_fault 4 (audio_faults w) = true →
  let permanentUri := RecordScreen.permanent_name (next_reading w) in
  ∃ w' st',
    RecordScreen.stop (w, st) = (Returned tt, (w', st')) ∧
    files w' !! permanentUri = Some duration ∧
    files w' !! Audio.getURI rec = Some duration ∧
    ui w' = ui w ++ [Navigate "Review"
                       (mkParams (Audio.getURI rec) (or_zero duration) None None)] ∧
    RecordScreen.audioUri st' = Some (Audio.getURI rec).
Proof.
  intros Hrec Hfile Hcopy Hdelete Haudio permanentUri.
  unfold RecordScreen.stop. unfold_monad. rewrite Hrec. cbv beta iota zeta.
  unfold Audio.stopAndUnloadAsync.
  assert (next_fault (audio_faults w) = false) as ->
    by (destruct (audio_faults w) as [|[] ?]; done).
  cbv beta iota zeta. set (w0 := with_audio_faults _ w).
  rewrite (copy_to_permanent_cleanup_rejected (Audio.getURI rec) duration w0)
    by done.
  change (next_reading w0) with (next_reading w). fold permanentUri.
  cbv beta iota zeta.
  set (w1 := with_files _ _).
  assert (files w1 !! permanentUri = Some duration) as Hperm.
  { subst w1. simpl. by rewrite lookup_insert_eq. }
  assert (files w1 !! Audio.getURI rec = Some duration) as Htemp.
  { subst w1. simpl. destruct (decide (permanentUri = Audio.getURI rec)) as [<-|?].
    - by rewrite lookup_insert_eq.
    - by rewrite lookup_insert_ne. }
  assert (ui w1 = ui w) as Hui by done.
  assert (no_fault 3 (audio_faults w1) = true) as Haudio1.
  { subst w1. simpl. destruct (audio_faults w) as [|[] [|[] [|[] [|[] ?]]]]; done. }
  clearbody w1.
  match goal with |- context [RecordScreen.setRecordingElapsedMs 0 ?s] =>
    set (st1 := RecordScreen.setRecordingElapsedMs 0 s) end.
  destruct (probe_duration (Audio.getURI rec) duration w1 Htemp Haudio1)
    as (h & wa & wb & s & wc & wd & -> & -> & -> & Hdur & -> & Hf2 & Hu2 & _).
  cbv beta iota zeta. cbn [Audio.status_durationMillis]. rewrite Hdur.
  unfold emit. unfold_monad. cbv beta iota zeta.
  eexists _, _. split; [reflexivity|]. simpl.
  rewrite Hf2, Hu2, Hui. done.
Qed.

Lemma stop_leaves_copy_behind_witness :
  let permanentUri := "file:///data/documents/recording_1700000003000.m4a" in
  ∃ w' st',
    RecordScreen.stop (capturing_world [false; true], recording_state)
      = (Returned tt, (w', st')) ∧
    files w' !! permanentUri = Some (Some 3000) ∧
    files w' !! "file:///cache/rec.m4a" = Some (Some 3000) ∧
    ui w' = [Navigate "Review" (mkParams "file:///cache/rec.m4a" 3000 None None)] ∧
    RecordScreen.audioUri st' = Some "file:///cache/rec.m4a".
Proof.
  intros permanentUri.
  apply (stop_leaves_copy_behind (capturing_world [false; true])
           recording_state capture (Some 3000)); reflexivity.
Defined.

(** X21.  [stop] never rejects, and it never leaves the screen busy: when a
    capture is under way the call ends with [isLoading] down, whatever the
    recorder, the file system and the player answer.  When the recorder
    fails to stop, the capture stays the current one, the user is shown
    "Stop Failed", and no file is touched.  Without a capture, [stop] does
    nothing. *)
Theorem stop_never_rejects w st :
  ∃ w' st',
    RecordScreen.stop (w, st) = (Returned tt, (w', st')) ∧
    (is_Some (RecordScreen.recording st) → RecordScreen.isLoading st' = false) ∧
    (RecordScreen.recording st = None → w' = w ∧ st' = st) ∧
    (next_fault (audio_faults w) = true →
     is_Some (RecordScreen.recording st) →
     RecordScreen.recording st' = RecordScreen.recording st ∧
     ui w' = ui w ++ [Alert "Stop Failed" "Audio error"] ∧
     files w' = files w).
Proof.
  unfold RecordScreen.stop. unfold_monad.
  destruct (RecordScreen.recording st) as [rec|] eqn:Hrec.
  2:{ eexists _, _. split; [done|]. by split_and!. }
  cbv beta iota zeta. unfold Audio.stopAndUnloadAsync.
  destruct (next_fault (audio_faults w)) eqn:Hstop.
  { unfold emit. unfold_monad. cbv beta iota zeta.
    eexists _, _. split; [reflexivity|]. simpl. by rewrite Hrec. }
  cbv beta iota zeta.
  repeat match goal with
  | |- context [let (_, _) := ?f ?x in _] =>
      lazymatch f with
      | RecordScreen.copy_to_permanent _ => idtac
      | Audio.loadAsync _ _ => idtac
      | Audio.getStatusAsync _ => idtac
      | Audio.unloadAsync _ => idtac
      | Audio.Sound_new => idtac
      end;
      destruct (f x) as [[?|?] ?]; cbv beta iota zeta
  end.
  all: unfold emit; unfold_monad; cbv beta iota zeta.
  all: eexists _, _; (split; [reflexivity|]); by split_and!.
Qed.




(** ** screens/ReviewScreen.tsx: mounting the player *)

(** X23.  [initializeAudio] never rejects.  When no file is stored under the
    locator of the screen, it creates no sound and leaves the state of the
    screen as it was, and the user gets one alert: that the audio file was
    not found, when the platform has answered the two calls before. *)
Theorem initializeAudio_missing_file params random w m :
  files w !! p_audioUri params = None →
  ∃ w' heading message,
    ReviewMount.initializeAudio params random (w, m) = (Returned tt, (w', m)) ∧
    sounds w' = sounds w ∧
    audio_calls w' = audio_calls w ∧
    ui w' = ui w ++ [Alert heading message] ∧
    (next_fault (audio_faults w) = false →
     next_fault (file_faults w) = false →
     heading = "Error" ∧
     message = "Audio file not found. The recording may have been moved or deleted.").
Proof.
  intros Hfile.
  unfold ReviewMount.initializeAudio, Audio.setAudioModeAsync,
    FileSystem.getInfoAsync, emit.
  unfold_monad.
  destruct (next_fault (audio_faults w)); cbv beta iota zeta.
  { eexists _, _, _. split; [reflexivity|]. by split_and!. }
  cbn [file_faults with_audio_faults files].
  destruct (next_fault (file_faults w)); cbv beta iota zeta.
  { eexists _, _, _. split; [reflexivity|]. by split_and!. }
  rewrite Hfile. rewrite bool_decide_eq_false_2 by (by intros [? ?]).
  cbv beta iota zeta.
  eexists _, _, _. split; [reflexivity|]. by split_and!.
Qed.

Lemma initializeAudio_missing_file_witness :
  let m := ReviewMount.mkMounted (ReviewScreen.initial fresh_params) [] in
  ∃ w' heading message,
    ReviewMount.initializeAudio fresh_params two_draws (quiet_world [], m)
      = (Returned tt, (w', m)) ∧
    sounds w' = ∅ ∧
    audio_calls w' = [] ∧
    ui w' = [Alert heading message] ∧
    (next_fault (audio_faults (quiet_world [])) = false →
     next_fault (file_faults (quiet_world [])) = false →
     heading = "Error" ∧
     message = "Audio file not found. The recording may have been moved or deleted.").
Proof.
  intros m.
  exact (initializeAudio_missing_file fresh_params two_draws (quiet_world []) m
           eq_refl).
Defined.

(** X24.  On a file that is there, with the platform answering,
    [initializeAudio] leaves the screen with a new sound loaded from the
    locator: paused at the start, not muted, at full volume, the progress at
    0 and no alert.  The waveform it draws has at most 100 amplitudes, all in
    [[0.1, 0.9)], when [Math.random()] draws from [[0, 1)]. *)
Theorem initializeAudio_loads params random w m duration :
  files w !! p_audioUri params = Some duration →
  no_fault 4 (audio_faults w) = true →
  next_fault (file_faults w) = false →
  (∀ i, unit_interval (random i)) →
  ∃ w' m' h s,
    ReviewMount.initializeAudio params random (w, m) = (Returned tt, (w', m')) ∧
    ReviewScreen.sound (ReviewMount.state m') = Some h ∧
    sounds w !! h = None ∧
    sounds w' !! h = Some s ∧
    loaded s = Some (p_audioUri params) ∧
    isPlaying s = false ∧ isMuted s = false ∧ volume s = 100 ∧
    positionMillis s = 0 ∧ durationMillis s = duration ∧
    ReviewScreen.audioProgress (ReviewMount.state m') = 0 ∧
    ui w' = ui w ∧
    (length (ReviewMount.waveformData m') ≤ 100)%nat ∧
    Forall amplitude (ReviewMount.waveformData m').
Proof.
  intros Hfile Haudio Hff Hrandom.
  destruct w as [it fl sn ck sf ff af nw ac u lc]; simpl in *.
  destruct af as [|[] [|[] [|[] [|[] af]]]]; try discriminate Haudio.
  all: unfold ReviewMount.initializeAudio, Audio.setAudioModeAsync,
    FileSystem.getInfoAsync, Audio.Sound_new, Audio.loadAsync,
    Audio.setIsMutedAsync, Audio.setVolumeAsync, Audio.call, Audio.the_loaded,
    Audio.store, emit; unfold_monad; simpl; rewrite Hff; simpl;
    rewrite Hfile; simpl;
    rewrite ?(bool_decide_eq_true_2 _ (mk_is_Some _ _ eq_refl)); simpl;
    rewrite ?Hfile; simpl; repeat (rewrite lookup_insert_eq; simpl).
  all: eexists _, _, _, _; (split; [reflexivity|]); simpl.
  all: rewrite ?lookup_insert_eq.
  all: split_and!; try reflexivity.
  all: try (apply not_elem_of_dom, is_fresh).
  all: try (unfold Waveform.generateWaveformData; rewrite length_fmap, length_seq;
            destruct (Waveform.Math_floor _) as [|[]|z]; simpl; lia).
  all: unfold Waveform.generateWaveformData; apply Forall_fmap, Forall_forall;
    intros i _; simpl; by apply amplitude_range.
Qed.

Lemma initializeAudio_loads_witness :
  let m := ReviewMount.mkMounted (ReviewScreen.initial fresh_params) [] in
  let w := with_sounds ∅ played_world in
  ∃ w' m' h s,
    ReviewMount.initializeAudio
      (mkParams "file://a.m4a" 250 None None) two_draws (w, m)
      = (Returned tt, (w', m')) ∧
    ReviewScreen.sound (ReviewMount.state m') = Some h ∧
    sounds w !! h = None ∧
    sounds w' !! h = Some s ∧
    loaded s = Some "file://a.m4a" ∧
    isPlaying s = false ∧ isMuted s = false ∧ volume s = 100 ∧
    positionMillis s = 0 ∧ durationMillis s = Some 10000 ∧
    ReviewScreen.audioProgress (ReviewMount.state m') = 0 ∧
    ui w' = [] ∧
    (length (ReviewMount.waveformData m') ≤ 100)%nat ∧
    Forall amplitude (ReviewMount.waveformData m').
Proof.
  intros m w.
  apply (initializeAudio_loads (mkParams "file://a.m4a" 250 None None)
           two_draws w m (Some 10000)); try reflexivity.
  intros i. unfold two_draws. destruct (Nat.even i); split; reflexivity.
Defined.
